(** * Follow The Keys: the sketch's game loop, embedded and verified

    A shallow embedding of [src/sketch.js] (a p5.js / ml5.js sketch): the
    global variables become one record [State], every function of the sketch
    becomes a function on that record, and the browser's event loop becomes a
    list of [Event]s folded over the state.

    What the sketch gets from outside is kept outside:
    - [random(0, numKeys)] and [millis()] are oracles, section variables
      [random] and [millis] that give the result of the k-th call;
    - [setTimeout(f, d)] appends [(f, d)] to the pending [timers]; the event
      [TimerFires k] removes the k-th pending timer and runs its callback, in
      whatever order the environment chooses;
    - [notes[j].play()] appends [j] to the [audio] log, and the p5 drawing
      calls of a frame are returned as a list of [P5Call]s.

    JavaScript numbers that hold coordinates and times are modelled as exact
    rationals ([Q]); key indices are integers ([Z]); array lengths, the level
    and the match cursor are naturals. *)

From Stdlib Require Import QArith Qround Lqa.
From stdpp Require Import gmap strings list pretty.

Open Scope Z_scope.

(** ** Data *)

(** [color(gray)] and [color(r, g, b)]. *)
Inductive Color : Type :=
| color1 (gray : Z)
| color3 (r g b : Z).

(** A rectangle as [rect(x, y, width, height)] receives it. *)
Record Rect : Type := mkRect { rx : Q; ry : Q; rwidth : Q; rheight : Q }.

Inductive Align : Type := CENTER | BOTTOM.

(** The p5 drawing calls the sketch makes. [Image] is [image(capture, ...)]. *)
Inductive P5Call : Type :=
| Background (gray : Z)
| Push
| Translate (x y : Q)
| Scale (x y : Q)
| Image (x y width height : Q)
| Pop
| Fill (c : option Color)
| Stroke (gray : Z)
| DrawRect (r : Rect)
| TextSize (n : Z)
| TextAlign (horiz vert : Align)
| Text (s : string) (x y : Q).

(** A detected hand; the sketch reads only [hand.keypoints[8]], the tip of
    the index finger. *)
Record Keypoint : Type := mkKeypoint { kx : Q; ky : Q }.
Record Hand : Type := mkHand { keypoints8 : Keypoint }.

(** The closures the sketch hands to [setTimeout]. *)
Inductive Callback : Type :=
| RevertKeyColor (j : Z)      (* lines 130-132 and 209-211 *)
| PlaySequenceCb              (* line 197 *)
| ReplayNote (noteIndex : Z)  (* lines 206-212 *)
| ReplayFinished              (* lines 214-216 *)
| ClearMessage.               (* lines 241 and 250 *)

#[global] Instance Callback_eq_dec : EqDecision Callback.
Proof. solve_decision. Defined.

(** A pending [setTimeout]: the callback and its delay in milliseconds. *)
Definition Timer : Type := Callback * Z.

(** The sketch's global variables (lines 16-46), followed by the
    environment's bookkeeping: pending timers, how many times each oracle
    has been called, the notes played so far, and the presses accepted so
    far, each with the clock reading that passed the debounce test. *)
Record State : Type := mkState {
  hands : list Hand;
  isKeyPressed : gmap Z bool;
  gameSequence : list Z;
  playerSequence : list Z;
  currentNoteIndex : nat;
  sequencePlaying : bool;
  keyColors : gmap Z Color;
  sequenceLength : nat;
  message : string;
  lastKeyPressTime : Q;
  a : Z;
  b : Z;
  c : Z;
  timers : list Timer;
  randomCalls : nat;
  millisCalls : nat;
  audio : list Z;
  accepted : list (Z * Q)
}.

(** Assignment to one global: every other field is kept. *)
Definition set_hands (v : list Hand) (st : State) : State :=
  let 'mkState _ x1 x2 x3 x4 x5 x6 x7 x8 x9 xa xb xc xd xe xf xg xh := st in
  mkState v x1 x2 x3 x4 x5 x6 x7 x8 x9 xa xb xc xd xe xf xg xh.
Definition set_isKeyPressed (v : gmap Z bool) (st : State) : State :=
  let 'mkState x0 _ x2 x3 x4 x5 x6 x7 x8 x9 xa xb xc xd xe xf xg xh := st in
  mkState x0 v x2 x3 x4 x5 x6 x7 x8 x9 xa xb xc xd xe xf xg xh.
Definition set_gameSequence (v : list Z) (st : State) : State :=
  let 'mkState x0 x1 _ x3 x4 x5 x6 x7 x8 x9 xa xb xc xd xe xf xg xh := st in
  mkState x0 x1 v x3 x4 x5 x6 x7 x8 x9 xa xb xc xd xe xf xg xh.
Definition set_playerSequence (v : list Z) (st : State) : State :=
  let 'mkState x0 x1 x2 _ x4 x5 x6 x7 x8 x9 xa xb xc xd xe xf xg xh := st in
  mkState x0 x1 x2 v x4 x5 x6 x7 x8 x9 xa xb xc xd xe xf xg xh.
Definition set_currentNoteIndex (v : nat) (st : State) : State :=
  let 'mkState x0 x1 x2 x3 _ x5 x6 x7 x8 x9 xa xb xc xd xe xf xg xh := st in
  mkState x0 x1 x2 x3 v x5 x6 x7 x8 x9 xa xb xc xd xe xf xg xh.
Definition set_sequencePlaying (v : bool) (st : State) : State :=
  let 'mkState x0 x1 x2 x3 x4 _ x6 x7 x8 x9 xa xb xc xd xe xf xg xh := st in
  mkState x0 x1 x2 x3 x4 v x6 x7 x8 x9 xa xb xc xd xe xf xg xh.
Definition set_keyColors (v : gmap Z Color) (st : State) : State :=
  let 'mkState x0 x1 x2 x3 x4 x5 _ x7 x8 x9 xa xb xc xd xe xf xg xh := st in
  mkState x0 x1 x2 x3 x4 x5 v x7 x8 x9 xa xb xc xd xe xf xg xh.
Definition set_sequenceLength (v : nat) (st : State) : State :=
  let 'mkState x0 x1 x2 x3 x4 x5 x6 _ x8 x9 xa xb xc xd xe xf xg xh := st in
  mkState x0 x1 x2 x3 x4 x5 x6 v x8 x9 xa xb xc xd xe xf xg xh.
Definition set_message (v : string) (st : State) : State :=
  let 'mkState x0 x1 x2 x3 x4 x5 x6 x7 _ x9 xa xb xc xd xe xf xg xh := st in
  mkState x0 x1 x2 x3 x4 x5 x6 x7 v x9 xa xb xc xd xe xf xg xh.
Definition set_lastKeyPressTime (v : Q) (st : State) : State :=
  let 'mkState x0 x1 x2 x3 x4 x5 x6 x7 x8 _ xa xb xc xd xe xf xg xh := st in
  mkState x0 x1 x2 x3 x4 x5 x6 x7 x8 v xa xb xc xd xe xf xg xh.
Definition set_a (v : Z) (st : State) : State :=
  let 'mkState x0 x1 x2 x3 x4 x5 x6 x7 x8 x9 _ xb xc xd xe xf xg xh := st in
  mkState x0 x1 x2 x3 x4 x5 x6 x7 x8 x9 v xb xc xd xe xf xg xh.
Definition set_b (v : Z) (st : State) : State :=
  let 'mkState x0 x1 x2 x3 x4 x5 x6 x7 x8 x9 xa _ xc xd xe xf xg xh := st in
  mkState x0 x1 x2 x3 x4 x5 x6 x7 x8 x9 xa v xc xd xe xf xg xh.
Definition set_timers (v : list Timer) (st : State) : State :=
  let 'mkState x0 x1 x2 x3 x4 x5 x6 x7 x8 x9 xa xb xc _ xe xf xg xh := st in
  mkState x0 x1 x2 x3 x4 x5 x6 x7 x8 x9 xa xb xc v xe xf xg xh.
Definition set_randomCalls (v : nat) (st : State) : State :=
  let 'mkState x0 x1 x2 x3 x4 x5 x6 x7 x8 x9 xa xb xc xd _ xf xg xh := st in
  mkState x0 x1 x2 x3 x4 x5 x6 x7 x8 x9 xa xb xc xd v xf xg xh.
Definition set_millisCalls (v : nat) (st : State) : State :=
  let 'mkState x0 x1 x2 x3 x4 x5 x6 x7 x8 x9 xa xb xc xd xe _ xg xh := st in
  mkState x0 x1 x2 x3 x4 x5 x6 x7 x8 x9 xa xb xc xd xe v xg xh.
Definition set_audio (v : list Z) (st : State) : State :=
  let 'mkState x0 x1 x2 x3 x4 x5 x6 x7 x8 x9 xa xb xc xd xe xf _ xh := st in
  mkState x0 x1 x2 x3 x4 x5 x6 x7 x8 x9 xa xb xc xd xe xf v xh.
Definition set_accepted (v : list (Z * Q)) (st : State) : State :=
  let 'mkState x0 x1 x2 x3 x4 x5 x6 x7 x8 x9 xa xb xc xd xe xf xg _ := st in
  mkState x0 x1 x2 x3 x4 x5 x6 x7 x8 x9 xa xb xc xd xe xf xg v.

(** Strict comparison of JavaScript numbers, on rationals. *)
Definition Qltb (x y : Q) : bool := negb (Qle_bool y x).

(** ** Constants of the sketch (lines 18, 40) *)

Definition numKeys : Z := 8.
Definition debounceTime : Q := 500%Q.

Definition msgVictory : string := "Correct! Level Up!".
Definition msgLoss : string := "Wrong Key!".
Definition instructions : string :=
  "Follow the sequence! Hover your index finger over the keys in the correct order.".

Definition white : Color := color1 255.
Definition blue : Color := color3 0 0 255.

(** ** The sketch *)

Section Sketch.

(** Canvas size (lines 11-12; the sketch runs with 640 by 480). *)
Variables w h : Q.

(** [random k] is what the k-th call of p5's [random(0, numKeys)] returns,
    [millis k] what the k-th call of p5's [millis()] returns. *)
Variable random : nat -> Q.
Variable millis : nat -> Q.

(** *** Key geometry, [setup] lines 78-82 *)

Definition whiteKeyWidth : Q := (w / inject_Z numKeys)%Q.
Definition whiteKeyHeight : Q := (h / 3)%Q.
Definition blackKeyWidth : Q := (whiteKeyWidth * (6 # 10))%Q.
Definition blackKeyHeight : Q := (whiteKeyHeight * (7 # 10))%Q.

(** *** [drawPiano], lines 166-182 *)

(** The rectangle of the first loop's iteration [i] (line 171). *)
Definition whiteKeyRect (i : Z) : Rect :=
  mkRect (inject_Z i * whiteKeyWidth)%Q 0%Q whiteKeyWidth whiteKeyHeight.

(** The rectangle of the second loop's iteration [i] (lines 176-179). *)
Definition blackKeyRect (i : Z) : Rect :=
  mkRect (inject_Z (i + 1) * whiteKeyWidth - blackKeyWidth / 2)%Q 0%Q
         blackKeyWidth blackKeyHeight.

(** The iterations of the second loop that draw (lines 174-175). *)
Definition blackKeyIterations : list Z :=
  filter (fun i => i ≠ 2 ∧ i ≠ 6) (seqZ 0 (numKeys - 1)).

Definition drawPiano (colors : gmap Z Color) : list P5Call :=
  flat_map (fun i => [Fill (colors !! i); Stroke 0; DrawRect (whiteKeyRect i)])
           (seqZ 0 numKeys)
  ++ flat_map (fun i => [Fill (Some (color1 0)); Stroke 0;
                         DrawRect (blackKeyRect i)])
              blackKeyIterations.

(** *** Environment calls *)

Definition setTimeout (cb : Callback) (delay : Z) (st : State) : State :=
  set_timers (timers st ++ [(cb, delay)]) st.

(** [notes[j].play()] for a loaded note. *)
Definition play (j : Z) (st : State) : State :=
  set_audio (audio st ++ [j]) st.

(** [preload] loads [notes[i]] for [0 <= i < numKeys] and nothing else. *)
Definition noteLoaded (j : Z) : bool := (0 <=? j) && (j <? numKeys).

(** [floor(random(0, numKeys))], consuming one draw. *)
Definition nextRandomKey (st : State) : Z * State :=
  (Qfloor (random (randomCalls st)), set_randomCalls (S (randomCalls st)) st).

(** [millis()], consuming one clock reading. *)
Definition readMillis (st : State) : Q * State :=
  (millis (millisCalls st), set_millisCalls (S (millisCalls st)) st).

(** *** [generateSequence], lines 185-198 *)

(** The loop of lines 192-194, [n] iterations left. *)
Fixpoint pushRandomKeys (n : nat) (st : State) : State :=
  match n with
  | O => st
  | S n' =>
      let '(key, st1) := nextRandomKey st in
      pushRandomKeys n' (set_gameSequence (gameSequence st1 ++ [key]) st1)
  end.

Definition generateSequence (st : State) : State :=
  let st := set_gameSequence [] st in
  let st := set_playerSequence [] st in
  let st := set_currentNoteIndex 0 st in
  let st := set_sequencePlaying true st in
  let st := pushRandomKeys (sequenceLength st) st in
  setTimeout PlaySequenceCb 2000 st.

(** *** [playSequence], lines 201-217 *)

(** The loop of lines 204-213 from index [i] on, [rest] being
    [gameSequence] from that index; [delay] is 500. *)
Fixpoint scheduleNotes (i : nat) (rest : list Z) (st : State) : State :=
  match rest with
  | [] => st
  | noteIndex :: rest' =>
      scheduleNotes (S i) rest'
        (setTimeout (ReplayNote noteIndex) (Z.of_nat i * 500) st)
  end.

Definition playSequence (st : State) : State :=
  let st := scheduleNotes 0 (gameSequence st) st in
  setTimeout ReplayFinished (Z.of_nat (length (gameSequence st)) * 500) st.

(** *** [displayMessage], lines 220-233 *)

Definition displayMessage (msg : string) (st : State) : State * list P5Call :=
  let st := if decide (msg = msgVictory) then set_b 255 st else set_a 255 st in
  let calls :=
    [TextSize 30; Fill (Some (color3 (a st) (b st) (c st)));
     TextAlign CENTER CENTER; Text msg (w / 2)%Q (h / 2)%Q] in
  (set_b 0 (set_a 0 st), calls).

(** *** [checkVictory], lines 236-243, and [checkLoss], lines 246-251 *)

(** [JSON.stringify] of two arrays of integers gives equal strings exactly
    when the arrays are equal. *)
Definition checkVictory (st : State) : State :=
  if decide (playerSequence st = gameSequence st) then
    let st := set_sequenceLength (S (sequenceLength st)) st in
    let st := generateSequence st in
    let st := set_message msgVictory st in
    setTimeout ClearMessage 1000 st
  else st.

Definition checkLoss (st : State) : State :=
  let st := set_sequenceLength 1 st in
  let st := generateSequence st in
  let st := set_message msgLoss st in
  setTimeout ClearMessage 1000 st.

(** *** [draw], lines 88-158 *)

(** Lines 124-143: the body run for an accepted press of key [j]. *)
Definition pressKey (j : Z) (st : State) : State :=
  let st := play j st in
  let st := set_isKeyPressed (<[j := true]> (isKeyPressed st)) st in
  let '(now, st) := readMillis st in
  let st := set_lastKeyPressTime now st in
  let st := set_keyColors (<[j := blue]> (keyColors st)) st in
  let st := setTimeout (RevertKeyColor j) 500 st in
  if decide (gameSequence st !! currentNoteIndex st = Some j) then
    let st := set_playerSequence (playerSequence st ++ [j]) st in
    let st := set_currentNoteIndex (S (currentNoteIndex st)) st in
    if decide (length (playerSequence st) = length (gameSequence st))
    then checkVictory st
    else st
  else checkLoss st.

(** The test of line 121 for the fingertip [tip] and key [j]. *)
Definition overWhiteKey (tip : Keypoint) (j : Z) : bool :=
  let correctedX := (w - kx tip)%Q in
  let whiteKeyX := (inject_Z j * whiteKeyWidth)%Q in
  let whiteKeyY := 0%Q in
  Qltb whiteKeyX correctedX && Qltb correctedX (whiteKeyX + whiteKeyWidth)%Q
  && Qltb whiteKeyY (ky tip) && Qltb (ky tip) whiteKeyHeight.

(** [!isKeyPressed[j]]: an absent entry is [undefined], which is falsy. *)
Definition keyIsPressed (j : Z) (st : State) : bool :=
  default false (isKeyPressed st !! j).

(** Lines 117-147: one iteration of the inner loop. The second conjunct of
    line 123 is evaluated, and the clock read, only when the first holds.
    An accepted press is recorded in [accepted] with the reading that
    passed the test. *)
Definition keyStep (hand : Hand) (j : Z) (st : State) : State :=
  if overWhiteKey (keypoints8 hand) j then
    if negb (keyIsPressed j st) then
      let '(now, st) := readMillis st in
      if Qltb debounceTime (now - lastKeyPressTime st)%Q then
        pressKey j (set_accepted (accepted st ++ [(j, now)]) st)
      else st
    else st
  else set_isKeyPressed (<[j := false]> (isKeyPressed st)) st.

(** Lines 108-149: the loop over the detected hands. *)
Definition handStep (st : State) (hand : Hand) : State :=
  foldl (fun st j => keyStep hand j st) st (seqZ 0 numKeys).

Definition levelText (st : State) : string :=
  "Level " +:+ pretty (sequenceLength st).

Definition draw (st : State) : State * list P5Call :=
  if decide (message st ≠ EmptyString) then
    let '(st, calls) := displayMessage (message st) st in
    (st, Background 0 :: calls)
  else
    let before :=
      [Background 0; Push; Translate w 0%Q; Scale (-1)%Q 1%Q;
       Image 0%Q 0%Q w h; Pop]
      ++ drawPiano (keyColors st) in
    let st := foldl handStep st (hands st) in
    (st,
     before ++
     [TextSize 24; TextAlign CENTER BOTTOM; Fill (Some (color1 255));
      Text (levelText st) (w / 2)%Q (h - 50)%Q;
      TextSize 15; Text instructions (w / 2)%Q (h - 20)%Q]).

(** *** [gotHands], lines 161-163 *)

Definition gotHands (results : list Hand) (st : State) : State :=
  set_hands results st.

(** *** Timer callbacks *)

(** Running a callback. [notes[noteIndex].play()] on a note that was not
    loaded throws, which ends the callback before it changes anything. *)
Definition fire (cb : Callback) (st : State) : State :=
  match cb with
  | RevertKeyColor j => set_keyColors (<[j := white]> (keyColors st)) st
  | PlaySequenceCb => playSequence st
  | ReplayNote noteIndex =>
      if noteLoaded noteIndex then
        let st := play noteIndex st in
        let st := set_keyColors (<[noteIndex := blue]> (keyColors st)) st in
        setTimeout (RevertKeyColor noteIndex) 500 st
      else st
  | ReplayFinished => set_sequencePlaying false st
  | ClearMessage => set_message EmptyString st
  end.

(** *** The event loop *)

Inductive Event : Type :=
| Frame
| HandsDetected (results : list Hand)
| TimerFires (k : nat).

Definition step (st : State) (e : Event) : State :=
  match e with
  | Frame => fst (draw st)
  | HandsDetected results => gotHands results st
  | TimerFires k =>
      match timers st !! k with
      | Some (cb, _) => fire cb (set_timers (delete k (timers st)) st)
      | None => st
      end
  end.

Definition run (st : State) (events : list Event) : State :=
  foldl step st events.

(** *** Start-up: the initialisers of lines 16-46, [preload], [setup] *)

Definition globals : State :=
  mkState [] ∅ [] [] 0 false ∅ 1 EmptyString 0%Q 0 0 0 [] 0 0 [] [].

(** Lines 53-57, without the sound files themselves. *)
Definition preload (st : State) : State :=
  foldl (fun st i =>
           let st := set_isKeyPressed (<[i := false]> (isKeyPressed st)) st in
           set_keyColors (<[i := white]> (keyColors st)) st)
        st (seqZ 0 numKeys).

(** Line 85; the geometry of lines 78-82 is [whiteKeyWidth] and the rest. *)
Definition setup (st : State) : State := generateSequence st.

Definition start : State := setup (preload globals).

(** A state the running sketch can be in between two events. *)
Definition reachable (st : State) : Prop :=
  exists events, st = run start events.

End Sketch.

(** ** Vocabulary of the properties *)

Section Vocabulary.

Variables w h : Q.
Variable random : nat -> Q.
Variable millis : nat -> Q.

(** The keys drawn by [n] successive calls starting with call [k]. *)
Definition drawnKeys (k n : nat) : list Z :=
  map (fun i => Qfloor (random i)) (seq k n).

(** The timers the loop of [playSequence] adds from index [i] on. *)
Fixpoint noteTimers (i : nat) (rest : list Z) : list Timer :=
  match rest with
  | [] => []
  | noteIndex :: rest' =>
      (ReplayNote noteIndex, Z.of_nat i * 500) :: noteTimers (S i) rest'
  end.

(** What holds of the sequence engine's variables between two events. *)
Record engineInv (st : State) : Prop := mkEngineInv {
  inv_level : length (gameSequence st) = sequenceLength st;
  inv_cursor : currentNoteIndex st = length (playerSequence st);
  inv_prefix : playerSequence st `prefix_of` gameSequence st;
  inv_open : (length (playerSequence st) < length (gameSequence st))%nat
}.

(** The three tests of lines 121 and 123 that let a press of key [j] by
    [hand] through. *)
Definition acceptsPress (hand : Hand) (j : Z) (st : State) : bool :=
  overWhiteKey w h (keypoints8 hand) j
  && negb (keyIsPressed j st)
  && Qltb debounceTime (millis (millisCalls st) - lastKeyPressTime st)%Q.

(** The state in which the body of an accepted press starts: the clock has
    been read once and the press is on record. *)
Definition pressNoted (j : Z) (st : State) : State :=
  let st1 := set_millisCalls (S (millisCalls st)) st in
  set_accepted (accepted st1 ++ [(j, millis (millisCalls st))]) st1.

(** The state after lines 124-132 of an accepted press: note played, key
    marked as pressed, time of the press taken, key turned blue and its
    return to white scheduled. *)
Definition pressStarted (j : Z) (st : State) : State :=
  setTimeout (RevertKeyColor j) 500
    (set_keyColors (<[j := blue]> (keyColors st))
       (set_lastKeyPressTime (millis (millisCalls st))
          (set_millisCalls (S (millisCalls st))
             (set_isKeyPressed (<[j := true]> (isKeyPressed st))
                (play j st))))).

(** The contract of p5's [random(0, numKeys)]: from 0 up to, not including,
    [numKeys]. *)
Definition randomInRange : Prop :=
  forall k, (0 <= random k)%Q /\ (random k < inject_Z numKeys)%Q.

(** The contract of p5's [millis()]: readings never go back. *)
Definition clockMonotone : Prop :=
  forall k, (millis k <= millis (S k))%Q.

(** Any two presses on record are more than [debounceTime] apart. *)
Definition spaced (log : list (Z * Q)) : Prop :=
  forall i1 i2 p1 p2,
    (i1 < i2)%nat -> log !! i1 = Some p1 -> log !! i2 = Some p2 ->
    (debounceTime < p2.2 - p1.2)%Q.

Definition debounceInv (st : State) : Prop :=
  spaced (accepted st)
  /\ Forall (fun p => (p.2 <= lastKeyPressTime st)%Q) (accepted st).

(** The state with [sequencePlaying] blanked out. *)
Definition forgetPlaying (st : State) : State := set_sequencePlaying false st.

(** [f] never reads [sequencePlaying]: run from a state with another value
    of the flag, it gives the same state up to the flag. *)
Definition flagBlind (f : State -> State) : Prop :=
  forall st v,
    exists v', f (set_sequencePlaying v st) = set_sequencePlaying v' (f st).

(** Where a rectangle's vertical centre line is, and where the boundary
    between white key [k - 1] and white key [k] is. *)
Definition centreX (r : Rect) : Q := (rx r + rwidth r / 2)%Q.
Definition boundaryX (k : Z) : Q := (inject_Z k * whiteKeyWidth w)%Q.

(** Whether [drawPiano] draws a black key centred on boundary [k]. *)
Definition blackKeyAtBoundary (k : Z) : bool :=
  existsb (fun i => Qeq_bool (centreX (blackKeyRect w h i)) (boundaryX k))
          blackKeyIterations.

(** While a message is set, a timer that clears it after 1000 ms is
    pending. *)
Definition messageTimed (st : State) : Prop :=
  message st ≠ EmptyString ->
  exists k, timers st !! k = Some (ClearMessage, 1000).

(** The drawing calls of a frame that only shows a message. *)
Definition messageOnly (calls : list P5Call) (msg : string) : Prop :=
  exists tint,
    calls = [Background 0; TextSize 30; Fill (Some tint);
             TextAlign CENTER CENTER; Text msg (w / 2)%Q (h / 2)%Q].

End Vocabulary.

(** ** An example world *)

(** Every draw is 3.5, so every generated key is 3. *)
Definition demoRandom (k : nat) : Q := 7 # 2.

(** The clock advances one second per reading, starting at one second. *)
Definition demoMillis (k : nat) : Q := inject_Z (1000 * Z.of_nat k + 1000).

(** A clock that stands at one second. *)
Definition frozenMillis (k : nat) : Q := 1000.

(** A hand whose index fingertip is shown over the middle of white key [j]
    on the 640 by 480 canvas. *)
Definition demoHand (j : Z) : Hand :=
  mkHand (mkKeypoint (640 - inject_Z (80 * j + 40))%Q 50%Q).

(** Draws that give the keys 3, then 1 and 4, then 0 for ever. *)
Definition scenarioRandom (k : nat) : Q :=
  match k with
  | 0%nat => 7 # 2
  | 1%nat => 3 # 2
  | 2%nat => 9 # 2
  | _ => 1 # 2
  end.

(** A fingertip over key 3 is seen by a frame, the message is cleared, and
    a fingertip over key 2 is seen by the next frame. *)
Definition demoEvents : list Event :=
  [HandsDetected [demoHand 3]; Frame; TimerFires 3;
   HandsDetected [demoHand 2]; Frame].

(** The scenario of the specification: level 1 with sequence 3, a press of
    3; then level 2 with sequence 1, 4, a press of 1 and a press of 2. *)
Definition scenarioEvents : list Event :=
  [HandsDetected [demoHand 3]; Frame; TimerFires 3;
   HandsDetected [demoHand 1]; Frame;
   HandsDetected [demoHand 2]; Frame].

(** The example world after the first frame's press of key 3. *)
Definition demoFirstPress : State :=
  keyStep 640 480 demoRandom demoMillis (demoHand 3) 3 (start demoRandom).

(** The state of the example world in which the first message is showing. *)
Definition demoMessageState : State :=
  run 640 480 demoRandom demoMillis (start demoRandom) (take 2 demoEvents).

(** The sequence engine's variables and the message. *)
Definition engineView (st : State) : nat * list Z * list Z * nat * string :=
  (sequenceLength st, gameSequence st, playerSequence st,
   currentNoteIndex st, message st).

(** ** Vocabulary of the further properties *)

Section MoreVocabulary.

Variables w h : Q.
Variable random : nat -> Q.
Variable millis : nat -> Q.

(** A key index of the keyboard. *)
Definition inRange (j : Z) : Prop := 0 <= j < numKeys.

(** The pressed marks after the inner loop for [hand] when it takes no
    press: every key the fingertip is not over is released. *)
Definition releaseKeys (hand : Hand) (marks : gmap Z bool) : gmap Z bool :=
  foldl (fun m j =>
           if overWhiteKey w h (keypoints8 hand) j then m else <[j := false]> m)
        marks (seqZ 0 numKeys).

Definition releaseAll (hs : list Hand) (marks : gmap Z bool) : gmap Z bool :=
  foldl (fun m hand => releaseKeys hand m) marks hs.

(** Lines 136-137 after lines 124-132: the expected key was pressed. *)
Definition pressCorrect (j : Z) (st : State) : State :=
  set_currentNoteIndex (S (currentNoteIndex st))
    (set_playerSequence (playerSequence st ++ [j]) (pressStarted millis j st)).

(** Lines 238-241: the body of [checkVictory] when the sequences agree. *)
Definition levelUp (st : State) : State :=
  setTimeout ClearMessage 1000
    (set_message msgVictory
       (generateSequence random
          (set_sequenceLength (S (sequenceLength st)) st))).

(** 1 + 2 + ... + n. *)
Fixpoint triangle (n : nat) : nat :=
  match n with
  | O => O
  | S m => S m + triangle m
  end.

(** The number of accepted presses it takes, from a fresh level 1, to stand
    where the player stands: all the sequences of the lower levels and the
    part of the current one already played. *)
Definition pressesNeeded (st : State) : nat :=
  triangle (pred (sequenceLength st)) + length (playerSequence st).

Definition progressInv (st : State) : Prop :=
  engineInv st /\ (pressesNeeded st <= length (accepted st))%nat.

(** The arrays indexed by key hold an entry for the keys 0..7 and no other,
    every colour is white or blue, every pending return to white is for a
    key of the keyboard, and so is every note played. *)
Definition keyboardInv (st : State) : Prop :=
  (forall j, inRange j ->
     keyColors st !! j = Some white \/ keyColors st !! j = Some blue)
  /\ (forall j, ~ inRange j -> keyColors st !! j = None)
  /\ (forall j, is_Some (isKeyPressed st !! j) <-> inRange j)
  /\ Forall (fun t : Timer => forall j, t.1 = RevertKeyColor j -> inRange j)
            (timers st)
  /\ Forall inRange (audio st).

(** Every key of the sequence and every note of a pending replay step is
    one of the loaded notes. *)
Definition replayInv (st : State) : Prop :=
  Forall inRange (gameSequence st)
  /\ Forall (fun t : Timer =>
               forall n, t.1 = ReplayNote n -> noteLoaded n = true)
            (timers st).

(** The scratch colours are at rest and the message is one of the three. *)
Definition tintInv (st : State) : Prop :=
  a st = 0 /\ b st = 0 /\ c st = 0
  /\ (message st = EmptyString \/ message st = msgVictory
      \/ message st = msgLoss).

(** Every press on record is of a key of the keyboard and was taken after
    the first [debounceTime]. *)
Definition lateInv (st : State) : Prop :=
  (0 <= lastKeyPressTime st)%Q
  /\ Forall (fun p : Z * Q => inRange p.1 /\ (debounceTime < p.2)%Q)
            (accepted st).

(** The drawing calls of a frame that shows [msg] in the colour [tint]. *)
Definition messageCalls (tint : Color) (msg : string) : list P5Call :=
  [Background 0; TextSize 30; Fill (Some tint); TextAlign CENTER CENTER;
   Text msg (w / 2)%Q (h / 2)%Q].

End MoreVocabulary.

(** ** More of the example world *)

(** A hand whose index fingertip is shown below the keys. *)
Definition demoFarHand : Hand := mkHand (mkKeypoint 100 400).

(** The example world after the first press and the end of its message:
    the fingertip is still over key 3, which is marked as pressed. *)
Definition demoHeldState : State :=
  run 640 480 demoRandom demoMillis (start demoRandom) (take 3 demoEvents).


(** Name the eighteen variables of a state. *)
Ltac open_state st :=
  destruct st as [hs pressed game player cursor playing colors level msg
                  last ta tb tc pending nrand nmillis played log].

(** An invariant [Hinv] of [st] carries over, by [same], to a state that
    differs from [st] in variables the invariant does not read. *)
Ltac kept same Hinv st :=
  eapply same; [..|exact Hinv]; by open_state st.

(** * Proofs *)

(** ** Closed forms of the loops *)

Section Loops.

Variables w h : Q.
Variable random : nat -> Q.
Variable millis : nat -> Q.

Lemma length_drawnKeys k n : length (drawnKeys random k n) = n.
Proof. unfold drawnKeys. by rewrite length_map, length_seq. Qed.

Lemma pushRandomKeys_closed n : forall st,
  pushRandomKeys random n st =
  set_randomCalls (randomCalls st + n)
    (set_gameSequence
       (gameSequence st ++ drawnKeys random (randomCalls st) n) st).
Proof.
  induction n as [|n IH]; intros st.
  - destruct st; cbn. by rewrite app_nil_r, Nat.add_0_r.
  - cbn [pushRandomKeys nextRandomKey]. rewrite IH.
    destruct st; cbn. rewrite <- app_assoc. cbn. do 2 f_equal. lia.
Qed.

Lemma generateSequence_closed st :
  generateSequence random st =
  mkState (hands st) (isKeyPressed st)
    (drawnKeys random (randomCalls st) (sequenceLength st)) [] 0 true
    (keyColors st) (sequenceLength st) (message st) (lastKeyPressTime st)
    (a st) (b st) (c st) (timers st ++ [(PlaySequenceCb, 2000)])
    (randomCalls st + sequenceLength st) (millisCalls st) (audio st)
    (accepted st).
Proof.
  unfold generateSequence. rewrite pushRandomKeys_closed. by destruct st.
Qed.

Lemma scheduleNotes_closed rest : forall i st,
  scheduleNotes i rest st = set_timers (timers st ++ noteTimers i rest) st.
Proof.
  induction rest as [|n rest IH]; intros i st.
  - destruct st; cbn. by rewrite app_nil_r.
  - cbn [scheduleNotes noteTimers]. rewrite IH.
    destruct st; cbn. by rewrite <- app_assoc.
Qed.

Lemma noteTimers_imap rest : forall i,
  noteTimers i rest
  = imap (fun k noteIndex => (ReplayNote noteIndex, Z.of_nat (i + k) * 500))
         rest.
Proof.
  induction rest as [|n rest IH]; intros i; [done|]. cbn. f_equal.
  - by rewrite Nat.add_0_r.
  - rewrite IH. apply imap_ext. intros k x _. cbn. do 2 f_equal. lia.
Qed.

Lemma playSequence_closed st :
  playSequence st =
  set_timers
    (timers st ++ noteTimers 0 (gameSequence st)
     ++ [(ReplayFinished, Z.of_nat (length (gameSequence st)) * 500)]) st.
Proof.
  unfold playSequence. rewrite scheduleNotes_closed.
  destruct st; cbn. by rewrite <- app_assoc.
Qed.

(** A property kept by each iteration of the inner loop of [draw], by
    [displayMessage], by [gotHands] and by the firing of any pending timer is
    kept by every run of the event loop. *)
Lemma run_invariant (P : State -> Prop) :
  (forall hand j st, P st -> P (keyStep w h random millis hand j st)) ->
  (forall shown st, P st -> P (fst (displayMessage w h shown st))) ->
  (forall results st, P st -> P (gotHands results st)) ->
  (forall k cb delay st,
     timers st !! k = Some (cb, delay) -> P st ->
     P (fire cb (set_timers (delete k (timers st)) st))) ->
  forall events st, P st -> P (run w h random millis st events).
Proof.
  intros Hkey Hmsg Hhands Hfire.
  assert (forall hand keys st, P st ->
            P (foldl (fun st j => keyStep w h random millis hand j st) st keys))
    as Hkeys.
  { intros hand keys. induction keys as [|j keys IH]; intros st HP; [done|].
    cbn -[keyStep]. by apply IH, Hkey. }
  assert (forall hs st, P st -> P (foldl (handStep w h random millis) st hs))
    as Hhs.
  { induction hs as [|hand hs IH]; intros st HP; [done|].
    cbn -[handStep]. by apply IH, Hkeys. }
  assert (forall st, P st -> P (fst (draw w h random millis st))) as Hdraw.
  { intros st HP. unfold draw. case_decide.
    - specialize (Hmsg (message st) st HP).
      by destruct (displayMessage w h (message st) st).
    - by apply Hhs. }
  induction events as [|e events IH]; intros st HP; [done|].
  cbn -[step]. apply IH. destruct e as [|results|k]; cbn -[draw fire].
  - by apply Hdraw.
  - by apply Hhands.
  - destruct (timers st !! k) as [[cb delay]|] eqn:Hk; [|done].
    by eapply Hfire.
Qed.

End Loops.

(** ** The sequence engine's invariant *)

Section Engine.

Variables w h : Q.
Variable random : nat -> Q.
Variable millis : nat -> Q.

(** The invariant reads four variables only. *)
Lemma engineInv_same st st' :
  gameSequence st' = gameSequence st ->
  playerSequence st' = playerSequence st ->
  currentNoteIndex st' = currentNoteIndex st ->
  sequenceLength st' = sequenceLength st ->
  engineInv st -> engineInv st'.
Proof.
  intros Hg Hp Hc Hl [? ? ? ?].
  split; rewrite ?Hg, ?Hp, ?Hc, ?Hl; assumption.
Qed.

Lemma prefix_snoc (player game : list Z) j :
  player `prefix_of` game -> game !! length player = Some j ->
  (player ++ [j]) `prefix_of` game.
Proof.
  intros [k ->] Hk.
  rewrite lookup_app_r, Nat.sub_diag in Hk by lia.
  destruct k as [|j' k]; simplify_eq/=.
  exists k. by rewrite <- app_assoc.
Qed.

Lemma prefix_full (l1 l2 : list Z) :
  l1 `prefix_of` l2 -> length l1 = length l2 -> l1 = l2.
Proof.
  intros [k ->] Hlen. rewrite length_app in Hlen.
  destruct k; [by rewrite app_nil_r | cbn in Hlen; lia].
Qed.

Lemma engineInv_fresh st k n :
  gameSequence st = drawnKeys random k n -> sequenceLength st = n ->
  playerSequence st = [] -> currentNoteIndex st = 0%nat -> (0 < n)%nat ->
  engineInv st.
Proof.
  intros Hg Hl Hp Hc Hn.
  split; rewrite ?Hg, ?Hl, ?Hp, ?Hc, ?length_drawnKeys; try done.
  apply prefix_nil.
Qed.

Lemma generateSequence_inv st :
  (0 < sequenceLength st)%nat -> engineInv (generateSequence random st).
Proof.
  intros Hpos. rewrite generateSequence_closed.
  by eapply engineInv_fresh.
Qed.

Lemma checkLoss_inv st : engineInv (checkLoss random st).
Proof.
  unfold checkLoss, setTimeout. rewrite generateSequence_closed.
  open_state st. eapply engineInv_fresh; cbn -[drawnKeys]; try reflexivity. lia.
Qed.

Lemma pressKey_inv j st :
  engineInv st -> engineInv (pressKey random millis j st).
Proof.
  intros [Hlev Hcur Hpre Hopen]. open_state st.
  cbn in Hlev, Hcur, Hpre, Hopen.
  unfold pressKey. cbn -[checkLoss checkVictory].
  case_decide as Hj; [|apply checkLoss_inv].
  rewrite Hcur in Hj.
  pose proof (prefix_snoc _ _ _ Hpre Hj) as Hpre'.
  case_decide as Hfull.
  - unfold checkVictory. cbn -[generateSequence].
    case_decide as Hjson; [|by destruct Hjson; apply prefix_full].
    rewrite generateSequence_closed.
    eapply engineInv_fresh; cbn -[drawnKeys]; try reflexivity. lia.
  - split; cbn; rewrite ?length_app; cbn; try lia; try done.
    apply prefix_length in Hpre'. rewrite length_app in Hpre', Hfull.
    cbn in *. lia.
Qed.

Lemma keyStep_inv hand j st :
  engineInv st -> engineInv (keyStep w h random millis hand j st).
Proof.
  intros Hinv. unfold keyStep.
  destruct (overWhiteKey _ _ _ _); [|kept engineInv_same Hinv st].
  destruct (negb _); [|done]. cbn -[pressKey].
  destruct (Qltb _ _); [|kept engineInv_same Hinv st].
  apply pressKey_inv. kept engineInv_same Hinv st.
Qed.

Lemma fire_inv cb st : engineInv st -> engineInv (fire cb st).
Proof.
  intros Hinv. destruct cb; cbn -[playSequence];
    rewrite ?playSequence_closed; try destruct (noteLoaded _); try done;
    kept engineInv_same Hinv st.
Qed.

Lemma run_inv events st :
  engineInv st -> engineInv (run w h random millis st events).
Proof.
  apply run_invariant; clear st.
  - apply keyStep_inv.
  - intros shown st Hinv. unfold displayMessage.
    destruct (decide _) as [_|_]; kept engineInv_same Hinv st.
  - intros results st Hinv. kept engineInv_same Hinv st.
  - intros k cb delay st _ Hinv. apply fire_inv. kept engineInv_same Hinv st.
Qed.

Lemma preload_sequenceLength : sequenceLength (preload globals) = 1%nat.
Proof. reflexivity. Qed.

Lemma start_inv : engineInv (start random).
Proof.
  unfold start, setup. apply generateSequence_inv.
  rewrite preload_sequenceLength. lia.
Qed.

Lemma reachable_inv st : reachable w h random millis st -> engineInv st.
Proof. intros [events ->]. apply run_inv, start_inv. Qed.

End Engine.

(** ** Properties of the sequence engine *)

Section Claims.

Variables w h : Q.
Variable random : nat -> Q.
Variable millis : nat -> Q.

Lemma Qltb_lt x y : Qltb x y = true <-> (x < y)%Q.
Proof.
  unfold Qltb. rewrite negb_true_iff, <- not_true_iff_false, Qle_bool_iff.
  split; [apply Qnot_le_lt | apply Qlt_not_le].
Qed.

Lemma drawnKeys_in_range k n :
  randomInRange random ->
  Forall (fun key => 0 <= key < numKeys) (drawnKeys random k n).
Proof.
  intros Hrange. unfold drawnKeys. apply Forall_map, Forall_forall.
  intros i _. cbn. destruct (Hrange i) as [Hlo Hhi]. split.
  - rewrite <- (Qfloor_Z 0). by apply Qfloor_resp_le.
  - apply Z.lt_nge. intros Hge.
    apply (Qlt_not_le _ _ Hhi).
    eapply Qle_trans; [|apply Qfloor_le]. by rewrite <- Zle_Qle.
Qed.

(** The body of the inner loop on a press that passes the three tests. *)
Lemma keyStep_accepts hand j st :
  acceptsPress w h millis hand j st = true ->
  keyStep w h random millis hand j st =
  pressKey random millis j (pressNoted millis j st).
Proof.
  unfold acceptsPress, keyStep. intros Hacc.
  apply andb_true_iff in Hacc as [Hacc Hdeb].
  apply andb_true_iff in Hacc as [Hover Hfree].
  rewrite Hover, Hfree. open_state st. cbn -[pressKey] in *.
  by rewrite Hdeb.
Qed.

Lemma pressKey_wrong j st :
  gameSequence st !! currentNoteIndex st ≠ Some j ->
  pressKey random millis j st = checkLoss random (pressStarted millis j st).
Proof.
  intros Hj. open_state st. unfold pressKey. cbn -[checkLoss] in *.
  by case_decide.
Qed.

Lemma pressKey_completing j st :
  gameSequence st !! currentNoteIndex st = Some j ->
  playerSequence st ++ [j] = gameSequence st ->
  pressKey random millis j st =
  setTimeout ClearMessage 1000
    (set_message msgVictory
       (generateSequence random
          (set_sequenceLength (S (sequenceLength st))
             (set_currentNoteIndex (S (currentNoteIndex st))
                (set_playerSequence (playerSequence st ++ [j])
                   (pressStarted millis j st)))))).
Proof.
  intros Hj Hfull. open_state st. unfold pressKey.
  cbn -[generateSequence] in *.
  case_decide; [|done]. rewrite Hfull.
  case_decide; [|done]. unfold checkVictory. cbn -[generateSequence].
  by case_decide.
Qed.

(** C2: for every level L (in particular every L >= 1), when [random] keeps
    to its range, [generateSequence] run at level L leaves a [gameSequence]
    of length exactly L whose elements are integers from 0 up to, not
    including, [numKeys], an empty [playerSequence] and cursor 0. *)
Theorem generateSequence_fresh (st : State) (L : nat) :
  randomInRange random -> sequenceLength st = L ->
  length (gameSequence (generateSequence random st)) = L
  /\ Forall (fun key => 0 <= key < numKeys)
            (gameSequence (generateSequence random st))
  /\ playerSequence (generateSequence random st) = []
  /\ currentNoteIndex (generateSequence random st) = 0%nat.
Proof.
  intros Hrange <-. rewrite generateSequence_closed. cbn -[drawnKeys].
  split_and!; try done.
  - apply length_drawnKeys.
  - by apply drawnKeys_in_range.
Qed.

(** C1: between any two events [playerSequence] is a prefix of
    [gameSequence], so no longer than it; and an accepted press of a key that
    is not [gameSequence[currentNoteIndex]] sets the level back to 1, empties
    [playerSequence], puts the cursor at 0 and draws a fresh [gameSequence]
    of one key. *)
Theorem player_prefix_or_reset :
  (forall st, reachable w h random millis st ->
     playerSequence st `prefix_of` gameSequence st
     /\ (length (playerSequence st) <= length (gameSequence st))%nat)
  /\ (forall hand j st,
        acceptsPress w h millis hand j st = true ->
        gameSequence st !! currentNoteIndex st ≠ Some j ->
        sequenceLength (keyStep w h random millis hand j st) = 1%nat
        /\ playerSequence (keyStep w h random millis hand j st) = []
        /\ currentNoteIndex (keyStep w h random millis hand j st) = 0%nat
        /\ gameSequence (keyStep w h random millis hand j st)
           = drawnKeys random (randomCalls st) 1
        /\ message (keyStep w h random millis hand j st) = msgLoss).
Proof.
  split.
  - intros st Hreach. destruct (reachable_inv _ _ _ _ _ Hreach) as [_ _ Hpre _].
    split; [done|]. by apply prefix_length.
  - intros hand j st Hacc Hj.
    rewrite (keyStep_accepts _ _ _ Hacc).
    rewrite pressKey_wrong by (by open_state st).
    unfold checkLoss. rewrite generateSequence_closed.
    by open_state st.
Qed.

(** C3: in a state of the running sketch whose [gameSequence] has length L,
    an accepted press of the expected key that brings [playerSequence] to
    length L makes the level L + 1, generates a [gameSequence] of length
    L + 1, and leaves [playerSequence] empty and the cursor at 0. *)
Theorem completing_press_levels_up hand j st (L : nat) :
  reachable w h random millis st ->
  length (gameSequence st) = L ->
  acceptsPress w h millis hand j st = true ->
  gameSequence st !! currentNoteIndex st = Some j ->
  S (length (playerSequence st)) = L ->
  sequenceLength (keyStep w h random millis hand j st) = S L
  /\ length (gameSequence (keyStep w h random millis hand j st)) = S L
  /\ playerSequence (keyStep w h random millis hand j st) = []
  /\ currentNoteIndex (keyStep w h random millis hand j st) = 0%nat.
Proof.
  intros Hreach HL Hacc Hj Hlast.
  destruct (reachable_inv _ _ _ _ _ Hreach) as [Hlev Hcur Hpre _].
  assert (playerSequence st ++ [j] = gameSequence st) as Hfull.
  { apply prefix_full.
    - apply prefix_snoc; [done|]. by rewrite <- Hcur.
    - rewrite length_app. cbn. lia. }
  rewrite (keyStep_accepts _ _ _ Hacc).
  rewrite pressKey_completing by (by open_state st).
  rewrite generateSequence_closed.
  open_state st. cbn -[drawnKeys] in *. rewrite length_drawnKeys.
  split_and!; try done; lia.
Qed.

(** C7: between any two events the length of [gameSequence] is the level
    [sequenceLength]; [generateSequence] and [checkLoss] establish the
    equality and [checkVictory] keeps it. *)
Theorem sequence_length_is_level :
  (forall st, reachable w h random millis st ->
     length (gameSequence st) = sequenceLength st)
  /\ (forall st,
        length (gameSequence (generateSequence random st))
        = sequenceLength (generateSequence random st))
  /\ (forall st,
        length (gameSequence st) = sequenceLength st ->
        length (gameSequence (checkVictory random st))
        = sequenceLength (checkVictory random st))
  /\ (forall st,
        length (gameSequence (checkLoss random st))
        = sequenceLength (checkLoss random st)).
Proof.
  split_and!.
  - intros st Hreach. by destruct (reachable_inv _ _ _ _ _ Hreach).
  - intros st. rewrite generateSequence_closed. cbn -[drawnKeys].
    apply length_drawnKeys.
  - intros st Hst. unfold checkVictory. case_decide; [|done].
    rewrite generateSequence_closed. open_state st. cbn -[drawnKeys].
    apply length_drawnKeys.
  - intros st. unfold checkLoss. rewrite generateSequence_closed.
    by open_state st.
Qed.

(** C10: between any two events the cursor [currentNoteIndex] is the length
    of [playerSequence]; the equality holds at start-up, after
    [generateSequence], and is kept by an accepted press of the expected
    key. When such a press fills the prefix to full length, the comparison
    of [checkVictory] is between equal sequences. *)
Theorem cursor_is_player_length :
  (forall st, reachable w h random millis st ->
     currentNoteIndex st = length (playerSequence st))
  /\ currentNoteIndex globals = length (playerSequence globals)
  /\ currentNoteIndex (start random) = length (playerSequence (start random))
  /\ (forall st,
        currentNoteIndex (generateSequence random st)
        = length (playerSequence (generateSequence random st)))
  /\ (forall hand j st,
        currentNoteIndex st = length (playerSequence st) ->
        acceptsPress w h millis hand j st = true ->
        gameSequence st !! currentNoteIndex st = Some j ->
        currentNoteIndex (keyStep w h random millis hand j st)
        = length (playerSequence (keyStep w h random millis hand j st)))
  /\ (forall j st,
        reachable w h random millis st ->
        gameSequence st !! currentNoteIndex st = Some j ->
        length (playerSequence st ++ [j]) = length (gameSequence st) ->
        playerSequence st ++ [j] = gameSequence st).
Proof.
  split_and!.
  - intros st Hreach. by destruct (reachable_inv _ _ _ _ _ Hreach).
  - reflexivity.
  - unfold start, setup. by rewrite generateSequence_closed.
  - intros st. by rewrite generateSequence_closed.
  - intros hand j st Hcur Hacc Hj.
    rewrite (keyStep_accepts _ _ _ Hacc).
    open_state st. unfold pressNoted, pressKey.
    cbn -[checkVictory] in *. case_decide; [|done].
    case_decide; [|cbn; rewrite length_app; cbn; lia].
    unfold checkVictory. cbn -[generateSequence].
    case_decide; [|cbn; rewrite length_app; cbn; lia].
    by rewrite generateSequence_closed.
  - intros j st Hreach Hj Hlen.
    destruct (reachable_inv _ _ _ _ _ Hreach) as [_ Hcur Hpre _].
    apply prefix_full; [|done].
    apply prefix_snoc; [done|]. by rewrite <- Hcur.
Qed.

End Claims.

(** In the example world the first frame that sees a fingertip over key 3
    completes the one-key sequence of level 1. *)
Lemma completing_press_levels_up_witness :
  sequenceLength demoFirstPress = 2%nat
  /\ length (gameSequence demoFirstPress) = 2%nat
  /\ playerSequence demoFirstPress = []
  /\ currentNoteIndex demoFirstPress = 0%nat.
Proof.
  apply (completing_press_levels_up 640 480 demoRandom demoMillis
           (demoHand 3) 3 (start demoRandom) 1).
  - by exists [].
  - reflexivity.
  - vm_compute. reflexivity.
  - reflexivity.
  - reflexivity.
Defined.

Lemma generateSequence_fresh_witness :
  length (gameSequence (generateSequence demoRandom (preload globals))) = 1%nat
  /\ Forall (fun key => 0 <= key < numKeys)
            (gameSequence (generateSequence demoRandom (preload globals)))
  /\ playerSequence (generateSequence demoRandom (preload globals)) = []
  /\ currentNoteIndex (generateSequence demoRandom (preload globals)) = 0%nat.
Proof.
  apply (generateSequence_fresh demoRandom (preload globals) 1).
  - intros k. split; vm_compute; congruence.
  - reflexivity.
Defined.

(** ** Debounce *)

Section Debounce.

Variables w h : Q.
Variable random : nat -> Q.
Variable millis : nat -> Q.
Hypothesis clock : clockMonotone millis.

(** The invariant reads two variables only. *)
Lemma debounceInv_same st st' :
  accepted st' = accepted st ->
  lastKeyPressTime st' = lastKeyPressTime st ->
  debounceInv st -> debounceInv st'.
Proof. unfold debounceInv. by intros -> ->. Qed.

Lemma spaced_snoc log p :
  spaced log -> Forall (fun q => (debounceTime < p.2 - q.2)%Q) log ->
  spaced (log ++ [p]).
Proof.
  intros Hlog Hp i1 i2 p1 p2 Hlt H1 H2.
  pose proof (lookup_lt_Some _ _ _ H2) as Hi2.
  rewrite length_app in Hi2. cbn in Hi2.
  rewrite lookup_app_l in H1 by lia.
  destruct (decide (i2 < length log)%nat) as [Hin|Hout].
  - rewrite lookup_app_l in H2 by lia. exact (Hlog i1 i2 p1 p2 Hlt H1 H2).
  - rewrite lookup_app_r in H2 by lia.
    replace (i2 - length log)%nat with 0%nat in H2 by lia.
    cbn in H2. injection H2 as <-.
    rewrite Forall_forall in Hp. apply Hp.
    apply list_elem_of_lookup. by exists i1.
Qed.

(** What the body of an accepted press does to the two variables. *)
Lemma pressKey_debounce j st :
  accepted (pressKey random millis j st) = accepted st
  /\ lastKeyPressTime (pressKey random millis j st) = millis (millisCalls st).
Proof.
  open_state st. unfold pressKey. cbn -[checkVictory checkLoss].
  case_decide.
  - case_decide; [|done]. unfold checkVictory. cbn -[generateSequence].
    case_decide; [|done]. by rewrite generateSequence_closed.
  - unfold checkLoss. by rewrite generateSequence_closed.
Qed.

Lemma keyStep_debounce hand j st :
  debounceInv st -> debounceInv (keyStep w h random millis hand j st).
Proof.
  intros Hinv.
  destruct (acceptsPress w h millis hand j st) eqn:Hacc.
  - rewrite (keyStep_accepts _ _ _ _ _ _ _ Hacc).
    destruct (pressKey_debounce j (pressNoted millis j st)) as [Hlog Hlast].
    unfold debounceInv. rewrite Hlog, Hlast. clear Hlog Hlast.
    unfold acceptsPress in Hacc.
    apply andb_true_iff in Hacc as [_ Hdeb]. apply Qltb_lt in Hdeb.
    destruct Hinv as [Hsp Hle]. pose proof (clock (millisCalls st)) as Hmono.
    open_state st. cbn in *. unfold debounceTime in *. split.
    + apply spaced_snoc; [done|].
      eapply Forall_impl; [exact Hle|]. cbn. intros q Hq.
      unfold debounceTime. lra.
    + apply Forall_app. split.
      * eapply Forall_impl; [exact Hle|]. cbn. intros q Hq. lra.
      * apply Forall_singleton. cbn. lra.
  - unfold keyStep, acceptsPress in *.
    destruct (overWhiteKey _ _ _ _); [|kept debounceInv_same Hinv st].
    destruct (negb _); [|done].
    cbn -[pressKey] in *.
    assert (Qltb debounceTime
              (millis (millisCalls st)
               - lastKeyPressTime (set_millisCalls (S (millisCalls st)) st))
            = false) as ->.
    { by open_state st. }
    kept debounceInv_same Hinv st.
Qed.

Lemma fire_debounce cb st : debounceInv st -> debounceInv (fire cb st).
Proof.
  intros Hinv. destruct cb; cbn -[playSequence];
    rewrite ?playSequence_closed; try destruct (noteLoaded _); try done;
    kept debounceInv_same Hinv st.
Qed.

Lemma run_debounce events st :
  debounceInv st -> debounceInv (run w h random millis st events).
Proof.
  apply run_invariant; clear st.
  - apply keyStep_debounce.
  - intros shown st Hinv. unfold displayMessage.
    destruct (decide _) as [_|_]; kept debounceInv_same Hinv st.
  - intros results st Hinv. kept debounceInv_same Hinv st.
  - intros k cb delay st _ Hinv. apply fire_debounce.
    kept debounceInv_same Hinv st.
Qed.

Lemma start_debounce : debounceInv (start random).
Proof.
  unfold start, setup. rewrite generateSequence_closed.
  unfold debounceInv. cbn [accepted lastKeyPressTime].
  change (accepted (preload globals)) with (@nil (Z * Q)).
  split; [|by apply Forall_nil].
  intros i1 i2 p1 p2 _ H1. by destruct i1.
Qed.

End Debounce.

(** C5: with a clock that never goes back, in every run of the sketch any
    two presses that were accepted, on the same key or on different keys,
    passed the debounce test more than [debounceTime] (500 ms) apart: of two
    presses within 500 ms of each other at most one is accepted. *)
Theorem accepted_presses_spaced (w h : Q) (random millis : nat -> Q)
    (events : list Event) (i1 i2 : nat) (j1 j2 : Z) (t1 t2 : Q) :
  clockMonotone millis ->
  (i1 < i2)%nat ->
  accepted (run w h random millis (start random) events) !! i1
  = Some (j1, t1) ->
  accepted (run w h random millis (start random) events) !! i2
  = Some (j2, t2) ->
  (debounceTime < t2 - t1)%Q.
Proof.
  intros Hclock Hlt H1 H2.
  destruct (run_debounce w h random millis Hclock events (start random)
              (start_debounce random)) as [Hsp _].
  exact (Hsp i1 i2 (j1, t1) (j2, t2) Hlt H1 H2).
Qed.

(** ** Replay and input *)

Section Replay.

Variables w h : Q.
Variable random : nat -> Q.
Variable millis : nat -> Q.

Lemma forgetPlaying_set v st :
  forgetPlaying (set_sequencePlaying v st) = forgetPlaying st.
Proof. by open_state st. Qed.

Lemma flagBlind_foldl {A} (f : State -> A -> State) (l : list A) :
  (forall x, flagBlind (fun st => f st x)) ->
  flagBlind (fun st => foldl f st l).
Proof.
  intros Hf. induction l as [|x l IH]; intros st v; cbn.
  - by exists v.
  - destruct (Hf x st v) as [v1 ->]. apply IH.
Qed.

Lemma pressKey_flagBlind j : flagBlind (pressKey random millis j).
Proof.
  intros st v. open_state st. unfold pressKey.
  cbn -[checkVictory checkLoss].
  case_decide.
  - case_decide; [|by exists v].
    unfold checkVictory. cbn -[generateSequence].
    case_decide; [|by exists v].
    rewrite !generateSequence_closed. by exists true.
  - unfold checkLoss. rewrite !generateSequence_closed. by exists true.
Qed.

Lemma keyStep_flagBlind hand j : flagBlind (keyStep w h random millis hand j).
Proof.
  intros st v. unfold keyStep.
  destruct (overWhiteKey _ _ _ _); [|exists v; by open_state st].
  assert (keyIsPressed j (set_sequencePlaying v st) = keyIsPressed j st) as ->
    by by open_state st.
  destruct (negb _); [|by exists v].
  assert (readMillis millis (set_sequencePlaying v st)
          = (millis (millisCalls st),
             set_sequencePlaying v (set_millisCalls (S (millisCalls st)) st)))
    as -> by by open_state st.
  unfold readMillis.
  assert (lastKeyPressTime
            (set_sequencePlaying v (set_millisCalls (S (millisCalls st)) st))
          = lastKeyPressTime (set_millisCalls (S (millisCalls st)) st)) as ->
    by by open_state st.
  destruct (Qltb _ _); [|by exists v].
  destruct (pressKey_flagBlind j
              (set_accepted
                 (accepted (set_millisCalls (S (millisCalls st)) st)
                  ++ [(j, millis (millisCalls st))])
                 (set_millisCalls (S (millisCalls st)) st)) v) as [v' Hv'].
  exists v'. rewrite <- Hv'. f_equal. by open_state st.
Qed.

Lemma handStep_flagBlind hand :
  flagBlind (fun st => handStep w h random millis st hand).
Proof.
  unfold handStep. apply flagBlind_foldl. intros j. apply keyStep_flagBlind.
Qed.

Lemma draw_flagBlind st v :
  exists v',
    draw w h random millis (set_sequencePlaying v st)
    = (set_sequencePlaying v' (fst (draw w h random millis st)),
       snd (draw w h random millis st)).
Proof.
  unfold draw.
  assert (message (set_sequencePlaying v st) = message st) as ->
    by by open_state st.
  case_decide as Hmsg; clear Hmsg.
  - exists v. unfold displayMessage.
    destruct (decide _) as [_|_]; by open_state st.
  - assert (hands (set_sequencePlaying v st) = hands st) as ->
      by by open_state st.
    assert (keyColors (set_sequencePlaying v st) = keyColors st) as ->
      by by open_state st.
    destruct (flagBlind_foldl (handStep w h random millis) (hands st)
                (handStep_flagBlind) st v) as [v' ->].
    exists v'. cbn [fst snd]. do 4 f_equal.
    generalize (foldl (handStep w h random millis) st (hands st)).
    intros st'. by open_state st'.
Qed.

End Replay.

(** C9: two runs of the frame handler from states that differ only in
    [sequencePlaying] make the same drawing calls, accept the same presses
    and end in states that differ at most in [sequencePlaying]: nothing in a
    frame is held back while the replay is on. *)
Theorem draw_ignores_sequencePlaying (w h : Q) (random millis : nat -> Q)
    (st : State) (v1 v2 : bool) :
  snd (draw w h random millis (set_sequencePlaying v1 st))
  = snd (draw w h random millis (set_sequencePlaying v2 st))
  /\ accepted (fst (draw w h random millis (set_sequencePlaying v1 st)))
     = accepted (fst (draw w h random millis (set_sequencePlaying v2 st)))
  /\ forgetPlaying (fst (draw w h random millis (set_sequencePlaying v1 st)))
     = forgetPlaying (fst (draw w h random millis (set_sequencePlaying v2 st))).
Proof.
  destruct (draw_flagBlind w h random millis st v1) as [v1' ->].
  destruct (draw_flagBlind w h random millis st v2) as [v2' ->].
  cbn [fst snd]. generalize (fst (draw w h random millis st)). intros st'.
  by open_state st'.
Qed.

(** ** Messages and the replay schedule *)

Section Message.

Variables w h : Q.
Variable random : nat -> Q.
Variable millis : nat -> Q.

(** Timers added at the end, the message as it was. *)
Lemma messageTimed_more st st' more :
  message st' = message st -> timers st' = timers st ++ more ->
  messageTimed st -> messageTimed st'.
Proof.
  unfold messageTimed. intros -> -> Hst Hmsg.
  destruct (Hst Hmsg) as [k Hk]. exists k.
  rewrite lookup_app_l; [done|]. by eapply lookup_lt_Some.
Qed.

(** The timer that clears the message added last. *)
Lemma messageTimed_last st others :
  timers st = others ++ [(ClearMessage, 1000)] -> messageTimed st.
Proof.
  intros Hst _. exists (length others). rewrite Hst.
  by rewrite lookup_app_r, Nat.sub_diag by lia.
Qed.

Lemma pressKey_messageTimed j st :
  messageTimed st -> messageTimed (pressKey random millis j st).
Proof.
  intros Hinv. unfold pressKey. cbn -[checkVictory checkLoss].
  case_decide.
  - case_decide.
    + unfold checkVictory. cbn -[generateSequence]. case_decide.
      * rewrite generateSequence_closed.
        eapply messageTimed_last. by open_state st.
      * eapply (messageTimed_more st); [..|exact Hinv]; by open_state st.
    + eapply (messageTimed_more st); [..|exact Hinv]; by open_state st.
  - unfold checkLoss. rewrite generateSequence_closed.
    eapply messageTimed_last. by open_state st.
Qed.

Lemma keyStep_messageTimed hand j st :
  messageTimed st -> messageTimed (keyStep w h random millis hand j st).
Proof.
  intros Hinv. unfold keyStep.
  destruct (overWhiteKey _ _ _ _);
    [|eapply (messageTimed_more st _ []); [..|exact Hinv];
      rewrite ?app_nil_r; by open_state st].
  destruct (negb _); [|done]. cbn -[pressKey].
  destruct (Qltb _ _).
  - apply pressKey_messageTimed.
    eapply (messageTimed_more st _ []); [..|exact Hinv];
      rewrite ?app_nil_r; by open_state st.
  - eapply (messageTimed_more st _ []); [..|exact Hinv];
      rewrite ?app_nil_r; by open_state st.
Qed.

Lemma fire_message cb st :
  cb ≠ ClearMessage -> message (fire cb st) = message st.
Proof.
  intros Hcb. destruct cb; cbn -[playSequence];
    rewrite ?playSequence_closed; try destruct (noteLoaded _); try done;
    by open_state st.
Qed.

Lemma fire_timers cb st : exists more, timers (fire cb st) = timers st ++ more.
Proof.
  destruct cb; cbn -[playSequence]; rewrite ?playSequence_closed;
    try destruct (noteLoaded _);
    try (eexists; by open_state st);
    exists []; rewrite app_nil_r; by open_state st.
Qed.

Lemma fire_messageTimed k cb delay st :
  timers st !! k = Some (cb, delay) -> messageTimed st ->
  messageTimed (fire cb (set_timers (delete k (timers st)) st)).
Proof.
  intros Hk Hinv.
  destruct (decide (cb = ClearMessage)) as [->|Hcb].
  { intros Hmsg. destruct Hmsg. by open_state st. }
  destruct (fire_timers cb (set_timers (delete k (timers st)) st))
    as [more Hmore].
  eapply (messageTimed_more (set_timers (delete k (timers st)) st));
    [by apply fire_message | exact Hmore |].
  intros Hmsg. destruct Hinv as [k' Hk']; [by open_state st|].
  assert (k' ≠ k) as Hne by (intros ->; congruence).
  destruct (decide (k' < k)%nat).
  - exists k'. replace (timers (set_timers (delete k (timers st)) st))
      with (delete k (timers st)) by by open_state st.
    by rewrite list_lookup_delete_lt.
  - exists (pred k'). replace (timers (set_timers (delete k (timers st)) st))
      with (delete k (timers st)) by by open_state st.
    rewrite list_lookup_delete_ge by lia. by replace (S (pred k')) with k' by lia.
Qed.

Lemma reachable_messageTimed st :
  reachable w h random millis st -> messageTimed st.
Proof.
  intros [events ->]. apply run_invariant.
  - apply keyStep_messageTimed.
  - intros shown st Hinv. unfold displayMessage.
    destruct (decide _) as [_|_];
      eapply (messageTimed_more st _ []); [..|exact Hinv| | |exact Hinv];
      rewrite ?app_nil_r; by open_state st.
  - intros results st Hinv.
    eapply (messageTimed_more st _ []); [..|exact Hinv];
      rewrite ?app_nil_r; by open_state st.
  - apply fire_messageTimed.
  - intros Hmsg. by destruct Hmsg.
Qed.

(** C6: a frame that begins with a message set makes only the drawing
    calls that show the message (after the background: no camera image, no
    key rectangle), reads neither the hands nor the clock, and changes
    nothing in the state but the scratch colours [a] and [b], which it
    leaves at 0; the message stays set through every event other than the
    firing of a [ClearMessage] timer; in the running sketch such a timer,
    set for 1000 ms, is pending, and its firing empties the message. *)
Theorem message_frame_shows_message_only (st : State) :
  message st ≠ EmptyString ->
  messageOnly w h (snd (draw w h random millis st)) (message st)
  /\ fst (draw w h random millis st) = set_b 0 (set_a 0 st)
  /\ (forall e,
        (forall k delay, e = TimerFires k ->
                         timers st !! k ≠ Some (ClearMessage, delay)) ->
        message (step w h random millis st e) ≠ EmptyString)
  /\ (reachable w h random millis st ->
      exists k, timers st !! k = Some (ClearMessage, 1000))
  /\ message (fire ClearMessage st) = EmptyString.
Proof.
  intros Hmsg. split_and!.
  - unfold draw. case_decide; [|done]. unfold displayMessage, messageOnly.
    cbn [snd]. by eexists.
  - unfold draw. case_decide; [|done]. unfold displayMessage.
    destruct (decide _) as [_|_]; by open_state st.
  - intros e He. destruct e as [|results|k]; cbn -[draw fire].
    + unfold draw. case_decide; [|done]. unfold displayMessage.
      destruct (decide _) as [_|_]; by open_state st.
    + by open_state st.
    + destruct (timers st !! k) as [[cb delay]|] eqn:Hk; [|done].
      rewrite fire_message.
      * by open_state st.
      * intros ->. by eapply He.
  - intros Hreach. by apply reachable_messageTimed.
  - by open_state st.
Qed.

(** C8: [generateSequence] adds one timer, [playSequence] after 2000 ms;
    a timer is gone once it fires; [playSequence] adds, for each index [i] of
    [gameSequence] in order, a timer [ReplayNote gameSequence[i]] after
    [i * 500] ms (and then the one that ends the replay); a [ReplayNote]
    of a loaded note plays that note, turns its key blue and adds the timer
    that turns the key white again after 500 ms. When [random] keeps to its
    range every note of a generated sequence is loaded. *)
Theorem replay_schedule (st : State) :
  timers (generateSequence random st) = timers st ++ [(PlaySequenceCb, 2000)]
  /\ (forall k cb delay, timers st !! k = Some (cb, delay) ->
        exists st', step w h random millis st (TimerFires k) = fire cb st'
                    /\ timers st' = delete k (timers st))
  /\ timers (fire PlaySequenceCb st)
     = timers st
       ++ imap (fun i noteIndex => (ReplayNote noteIndex, Z.of_nat i * 500))
               (gameSequence st)
       ++ [(ReplayFinished, Z.of_nat (length (gameSequence st)) * 500)]
  /\ (forall noteIndex, noteLoaded noteIndex = true ->
        audio (fire (ReplayNote noteIndex) st) = audio st ++ [noteIndex]
        /\ keyColors (fire (ReplayNote noteIndex) st)
           = <[noteIndex := blue]> (keyColors st)
        /\ timers (fire (ReplayNote noteIndex) st)
           = timers st ++ [(RevertKeyColor noteIndex, 500)]
        /\ keyColors (fire (RevertKeyColor noteIndex) st)
           = <[noteIndex := white]> (keyColors st))
  /\ (randomInRange random ->
      Forall (fun noteIndex => noteLoaded noteIndex = true)
             (gameSequence (generateSequence random st))).
Proof.
  split_and!.
  - by rewrite generateSequence_closed.
  - intros k cb delay Hk. cbn -[fire]. rewrite Hk.
    eexists. split; [done|]. by open_state st.
  - cbn -[playSequence]. rewrite playSequence_closed.
    rewrite noteTimers_imap. by open_state st.
  - intros noteIndex Hloaded. cbn. rewrite Hloaded. by open_state st.
  - intros Hrange. rewrite generateSequence_closed. cbn -[drawnKeys].
    eapply Forall_impl; [by apply drawnKeys_in_range|].
    intros key Hkey. unfold noteLoaded, numKeys in *. cbn in Hkey.
    apply andb_true_iff. split; [apply Z.leb_le | apply Z.ltb_lt]; lia.
Qed.

End Message.

(** ** Keyboard layout *)

Section Layout.

Variables w h : Q.

Lemma blackKeyIterations_eq : blackKeyIterations = [0; 1; 3; 4; 5].
Proof. reflexivity. Qed.

Lemma blackKeyRect_centre i :
  (centreX (blackKeyRect w h i) == boundaryX w (i + 1))%Q.
Proof. unfold centreX, boundaryX, blackKeyRect. cbn. field. Qed.

Lemma boundaryX_inj k1 k2 :
  (0 < w)%Q -> (boundaryX w k1 == boundaryX w k2)%Q -> k1 = k2.
Proof.
  unfold boundaryX, whiteKeyWidth. intros Hw Heq.
  assert (inject_Z k1 == inject_Z k2)%Q as Hk.
  { apply (Qmult_inj_r _ _ (w / inject_Z numKeys)); [|done].
    intros Hz. unfold numKeys in Hz.
    assert (w == 0)%Q as Hw0
      by (rewrite <- (Qmult_0_l (inject_Z 8)), <- Hz; field).
    rewrite Hw0 in Hw. by apply Qlt_irrefl in Hw. }
  unfold Qeq in Hk. cbn in Hk. lia.
Qed.

Lemma blackKeyAtBoundary_iff k :
  (0 < w)%Q ->
  blackKeyAtBoundary w h k = true
  <-> exists i, i ∈ blackKeyIterations /\ k = i + 1.
Proof.
  intros Hw. unfold blackKeyAtBoundary. rewrite existsb_exists.
  split; intros [i [Hi Hk]]; exists i.
  - split; [by apply list_elem_of_In|].
    apply Qeq_bool_iff in Hk. rewrite blackKeyRect_centre in Hk.
    symmetry. by eapply boundaryX_inj.
  - split; [by apply list_elem_of_In|].
    apply Qeq_bool_iff. rewrite blackKeyRect_centre. by subst k.
Qed.

(** C4, as the sketch has it: on a canvas [w] wide and [h] high, white key
    [j]'s rectangle starts at [j * w / 8], is [w / 8] wide, so ends at
    [(j + 1) * w / 8], and covers the top third of the height; [drawPiano]
    draws the eight white keys and then one black key for each of the
    iterations 0, 1, 3, 4, 5 of its second loop; iteration [i] centres its
    key on boundary [i + 1], so the black keys sit on boundaries 1, 2, 4, 5
    and 6 and on no other, in particular not on boundaries 3 and 7, which
    iterations 2 and 6 would draw. *)
Theorem keyboard_layout (colors : gmap Z Color) :
  (0 < w)%Q ->
  (forall j,
     (rx (whiteKeyRect w h j) == inject_Z j * w / 8)%Q
     /\ (rx (whiteKeyRect w h j) + rwidth (whiteKeyRect w h j)
         == inject_Z (j + 1) * w / 8)%Q
     /\ ry (whiteKeyRect w h j) = 0%Q
     /\ (rheight (whiteKeyRect w h j) == h / 3)%Q)
  /\ drawPiano w h colors
     = flat_map (fun i => [Fill (colors !! i); Stroke 0;
                           DrawRect (whiteKeyRect w h i)])
                [0; 1; 2; 3; 4; 5; 6; 7]
       ++ flat_map (fun i => [Fill (Some (color1 0)); Stroke 0;
                              DrawRect (blackKeyRect w h i)])
                   [0; 1; 3; 4; 5]
  /\ (forall i, (centreX (blackKeyRect w h i) == boundaryX w (i + 1))%Q)
  /\ (forall k, blackKeyAtBoundary w h k = true <-> k ∈ [1; 2; 4; 5; 6]).
Proof.
  intros Hw. split_and!.
  - intros j. unfold whiteKeyRect, whiteKeyWidth, whiteKeyHeight, numKeys. cbn.
    split_and!; try done.
    + field.
    + rewrite inject_Z_plus. field.
  - reflexivity.
  - apply blackKeyRect_centre.
  - intros k. rewrite blackKeyAtBoundary_iff by done.
    rewrite blackKeyIterations_eq. split.
    + intros [i [Hi ->]]. rewrite !elem_of_cons, elem_of_nil in *. lia.
    + intros Hk. exists (k - 1). split; [|lia].
      rewrite !elem_of_cons, elem_of_nil in *. lia.
Qed.

End Layout.

(** C4 as stated fails on the 640 by 480 canvas: no black key is centred on
    boundary 3 or on boundary 7; nor, reading the numbers as iterations of
    the loop, is there an iteration 7. *)
Lemma black_keys_1_3_4_5_7_refuted :
  ~ (forall k, k ∈ [1; 3; 4; 5; 7] -> blackKeyAtBoundary 640 480 k = true)
  /\ ~ (forall i, i ∈ [1; 3; 4; 5; 7] -> i ∈ blackKeyIterations).
Proof.
  split.
  - intros Hall. assert (blackKeyAtBoundary 640 480 3 = true) as H3.
    { apply Hall. rewrite !elem_of_cons. tauto. }
    vm_compute in H3. discriminate.
  - intros Hall. assert (7 ∈ blackKeyIterations) as H7.
    { apply Hall. rewrite !elem_of_cons. tauto. }
    rewrite blackKeyIterations_eq, !elem_of_cons, elem_of_nil in H7. lia.
Qed.

Lemma keyboard_layout_witness :
  (forall j,
     (rx (whiteKeyRect 640 480 j) == inject_Z j * 640 / 8)%Q
     /\ (rx (whiteKeyRect 640 480 j) + rwidth (whiteKeyRect 640 480 j)
         == inject_Z (j + 1) * 640 / 8)%Q
     /\ ry (whiteKeyRect 640 480 j) = 0%Q
     /\ (rheight (whiteKeyRect 640 480 j) == 480 / 3)%Q)
  /\ drawPiano 640 480 (keyColors (preload globals))
     = flat_map (fun i => [Fill (keyColors (preload globals) !! i); Stroke 0;
                           DrawRect (whiteKeyRect 640 480 i)])
                [0; 1; 2; 3; 4; 5; 6; 7]
       ++ flat_map (fun i => [Fill (Some (color1 0)); Stroke 0;
                              DrawRect (blackKeyRect 640 480 i)])
                   [0; 1; 3; 4; 5]
  /\ (forall i, (centreX (blackKeyRect 640 480 i) == boundaryX 640 (i + 1))%Q)
  /\ (forall k, blackKeyAtBoundary 640 480 k = true <-> k ∈ [1; 2; 4; 5; 6]).
Proof.
  apply (keyboard_layout 640 480 (keyColors (preload globals))).
  reflexivity.
Defined.

(** ** The example world at work *)

Example scenario_level_1 :
  engineView (start scenarioRandom) = (1%nat, [3], [], 0%nat, EmptyString).
Proof. vm_compute. reflexivity. Qed.

Example scenario_victory :
  engineView (run 640 480 scenarioRandom demoMillis (start scenarioRandom)
                (take 2 scenarioEvents))
  = (2%nat, [1; 4], [], 0%nat, msgVictory).
Proof. vm_compute. reflexivity. Qed.

Example scenario_correct_press :
  engineView (run 640 480 scenarioRandom demoMillis (start scenarioRandom)
                (take 5 scenarioEvents))
  = (2%nat, [1; 4], [1], 1%nat, EmptyString).
Proof. vm_compute. reflexivity. Qed.

Example scenario_loss :
  engineView (run 640 480 scenarioRandom demoMillis (start scenarioRandom)
                scenarioEvents)
  = (1%nat, [0], [], 0%nat, msgLoss).
Proof. vm_compute. reflexivity. Qed.

(** A press while the first replay is still pending is taken like any
    other: [sequencePlaying] is set and the press is accepted. *)
Example press_during_replay :
  sequencePlaying (start demoRandom) = true
  /\ accepted (fst (draw 640 480 demoRandom demoMillis
                     (gotHands [demoHand 3] (start demoRandom))))
     = [(3, 1000%Q)].
Proof. vm_compute. split; reflexivity. Qed.

(** The test of line 92 is made once, when the frame begins: a frame that
    begins without a message and in which a press sets one still finishes
    its loops. Here two hands are seen in one frame and the clock stands
    still: after the press of key 3 by the first hand has set the message,
    the loop of the second hand clears the pressed mark of key 3 and reads
    the clock for key 2. *)
Example frame_that_sets_message_finishes :
  message (fst (draw 640 480 demoRandom frozenMillis
                  (gotHands [demoHand 3; demoHand 2] (start demoRandom))))
  = msgVictory
  /\ isKeyPressed
       (fst (draw 640 480 demoRandom frozenMillis
               (gotHands [demoHand 3; demoHand 2] (start demoRandom)))) !! 3
     = Some false
  /\ millisCalls
       (fst (draw 640 480 demoRandom frozenMillis
               (gotHands [demoHand 3; demoHand 2] (start demoRandom))))
     = 3%nat
  /\ accepted
       (fst (draw 640 480 demoRandom frozenMillis
               (gotHands [demoHand 3; demoHand 2] (start demoRandom))))
     = [(3, 1000%Q)].
Proof. vm_compute. split_and!; reflexivity. Qed.

Lemma accepted_presses_spaced_witness :
  accepted (run 640 480 demoRandom demoMillis (start demoRandom) demoEvents)
  = [(3, 1000%Q); (2, 3000%Q)]
  /\ (debounceTime < 3000 - 1000)%Q.
Proof.
  split; [vm_compute; reflexivity|].
  apply (accepted_presses_spaced 640 480 demoRandom demoMillis demoEvents
           0 1 3 2 1000 3000).
  - intros k. unfold demoMillis. rewrite <- Zle_Qle. lia.
  - lia.
  - vm_compute. reflexivity.
  - vm_compute. reflexivity.
Defined.

Lemma message_frame_shows_message_only_witness :
  messageOnly 640 480
    (snd (draw 640 480 demoRandom demoMillis demoMessageState))
    (message demoMessageState)
  /\ fst (draw 640 480 demoRandom demoMillis demoMessageState)
     = set_b 0 (set_a 0 demoMessageState)
  /\ (forall e,
        (forall k delay, e = TimerFires k ->
                         timers demoMessageState !! k
                         ≠ Some (ClearMessage, delay)) ->
        message (step 640 480 demoRandom demoMillis demoMessageState e)
        ≠ EmptyString)
  /\ (reachable 640 480 demoRandom demoMillis demoMessageState ->
      exists k, timers demoMessageState !! k = Some (ClearMessage, 1000))
  /\ message (fire ClearMessage demoMessageState) = EmptyString.
Proof.
  apply (message_frame_shows_message_only 640 480 demoRandom demoMillis
           demoMessageState).
  vm_compute. discriminate.
Defined.

(** * Further properties *)

(** ** The cases of a press *)

Section Cases.

Variables w h : Q.
Variable random : nat -> Q.
Variable millis : nat -> Q.

Lemma elem_of_keys j : j ∈ seqZ 0 numKeys <-> inRange j.
Proof. rewrite elem_of_seqZ. unfold inRange. lia. Qed.

(** The three ways the body of an accepted press ends. *)
Lemma pressKey_cases j st :
  (gameSequence st !! currentNoteIndex st = Some j
   /\ playerSequence st ++ [j] ≠ gameSequence st
   /\ pressKey random millis j st = pressCorrect millis j st)
  \/ (gameSequence st !! currentNoteIndex st = Some j
      /\ playerSequence st ++ [j] = gameSequence st
      /\ pressKey random millis j st
         = levelUp random (pressCorrect millis j st))
  \/ (gameSequence st !! currentNoteIndex st ≠ Some j
      /\ pressKey random millis j st
         = checkLoss random (pressStarted millis j st)).
Proof.
  destruct (decide (gameSequence st !! currentNoteIndex st = Some j))
    as [Hj|Hj]; [|right; right; split; [done|]; by apply pressKey_wrong].
  destruct (decide (playerSequence st ++ [j] = gameSequence st))
    as [Hfull|Hfull].
  - right; left. split_and!; try done.
    rewrite pressKey_completing by done. unfold levelUp, pressCorrect.
    by open_state st.
  - left. split_and!; try done.
    open_state st. unfold pressKey, pressCorrect, pressStarted.
    cbn -[checkVictory] in *. case_decide; [|done].
    case_decide; [|done]. unfold checkVictory. cbn. by case_decide.
Qed.

(** The four ways an iteration of the inner loop ends. *)
Lemma keyStep_cases hand j st :
  (overWhiteKey w h (keypoints8 hand) j = false
   /\ keyStep w h random millis hand j st
      = set_isKeyPressed (<[j := false]> (isKeyPressed st)) st)
  \/ (overWhiteKey w h (keypoints8 hand) j = true
      /\ keyIsPressed j st = true
      /\ keyStep w h random millis hand j st = st)
  \/ (overWhiteKey w h (keypoints8 hand) j = true
      /\ keyIsPressed j st = false
      /\ acceptsPress w h millis hand j st = false
      /\ keyStep w h random millis hand j st
         = set_millisCalls (S (millisCalls st)) st)
  \/ (acceptsPress w h millis hand j st = true
      /\ keyStep w h random millis hand j st
         = pressKey random millis j (pressNoted millis j st)).
Proof.
  destruct (acceptsPress w h millis hand j st) eqn:Hacc.
  { right; right; right. split; [done|]. by apply keyStep_accepts. }
  unfold keyStep, acceptsPress in *.
  destruct (overWhiteKey _ _ _ _); [|by left].
  destruct (keyIsPressed j st); [right; left; by cbn|].
  right; right; left. split_and!; try done. cbn -[pressKey] in *.
  assert (lastKeyPressTime (set_millisCalls (S (millisCalls st)) st)
          = lastKeyPressTime st) as -> by by open_state st.
  by rewrite Hacc.
Qed.

(** As [run_invariant], for a property that asks the key of the inner loop
    to be one of the keyboard. *)
Lemma run_invariant_keys (P : State -> Prop) :
  (forall hand j st, inRange j -> P st ->
     P (keyStep w h random millis hand j st)) ->
  (forall shown st, P st -> P (fst (displayMessage w h shown st))) ->
  (forall results st, P st -> P (gotHands results st)) ->
  (forall k cb delay st,
     timers st !! k = Some (cb, delay) -> P st ->
     P (fire cb (set_timers (delete k (timers st)) st))) ->
  forall events st, P st -> P (run w h random millis st events).
Proof.
  intros Hkey Hmsg Hhands Hfire.
  assert (forall hand keys st, Forall inRange keys -> P st ->
            P (foldl (fun st j => keyStep w h random millis hand j st) st keys))
    as Hkeys.
  { intros hand keys. induction keys as [|j keys IH]; intros st Hin HP; [done|].
    apply Forall_cons in Hin as [Hj Hin].
    cbn -[keyStep]. apply IH; [done|]. by apply Hkey. }
  assert (forall hs st, P st -> P (foldl (handStep w h random millis) st hs))
    as Hhs.
  { induction hs as [|hand hs IH]; intros st HP; [done|].
    cbn -[handStep]. apply IH, Hkeys; [|done].
    apply Forall_forall. intros j. apply elem_of_keys. }
  assert (forall st, P st -> P (fst (draw w h random millis st))) as Hdraw.
  { intros st HP. unfold draw. case_decide.
    - specialize (Hmsg (message st) st HP).
      by destruct (displayMessage w h (message st) st).
    - by apply Hhs. }
  induction events as [|e events IH]; intros st HP; [done|].
  cbn -[step]. apply IH. destruct e as [|results|k]; cbn -[draw fire].
  - by apply Hdraw.
  - by apply Hhands.
  - destruct (timers st !! k) as [[cb delay]|] eqn:Hk; [|done].
    by eapply Hfire.
Qed.

End Cases.

(** ** The fingertip and the keys *)

Section Fingertip.

Variables w h : Q.

Lemma overWhiteKey_spec tip j :
  overWhiteKey w h tip j = true <->
  (inject_Z j * whiteKeyWidth w < w - kx tip)%Q
  /\ (w - kx tip < inject_Z j * whiteKeyWidth w + whiteKeyWidth w)%Q
  /\ (0 < ky tip)%Q /\ (ky tip < whiteKeyHeight h)%Q.
Proof.
  unfold overWhiteKey. cbn zeta. rewrite !andb_true_iff, !Qltb_lt. tauto.
Qed.

Lemma overWhiteKey_unique tip j1 j2 :
  overWhiteKey w h tip j1 = true -> overWhiteKey w h tip j2 = true -> j1 = j2.
Proof.
  rewrite !overWhiteKey_spec. intros (Hl1 & Hr1 & _) (Hl2 & Hr2 & _).
  set (ww := whiteKeyWidth w) in *. clearbody ww.
  assert (0 < ww)%Q as Hpos by lra.
  assert (forall j j', (inject_Z j * ww < inject_Z j' * ww + ww)%Q ->
                       j < j' + 1) as Hlt.
  { intros j j' Hjj. rewrite Zlt_Qlt, inject_Z_plus.
    apply (Qmult_lt_r _ _ ww); [done|].
    rewrite Qmult_plus_distr_l. change (inject_Z 1) with 1%Q. lra. }
  assert (j1 < j2 + 1) by (apply Hlt; lra).
  assert (j2 < j1 + 1) by (apply Hlt; lra).
  lia.
Qed.

(** X1: a fingertip is over at most one white key; it is over none when it
    is mirrored onto a boundary between keys, when it is at or below the
    lower edge of the keys or at or above the top of the canvas, and, for a
    key of the keyboard on a canvas of positive width, only when it is
    strictly inside the image. *)
Theorem fingertip_over_one_key :
  (forall tip j1 j2,
     overWhiteKey w h tip j1 = true -> overWhiteKey w h tip j2 = true ->
     j1 = j2)
  /\ (forall tip j k,
        (w - kx tip == boundaryX w k)%Q -> overWhiteKey w h tip j = false)
  /\ (forall tip j,
        (whiteKeyHeight h <= ky tip)%Q \/ (ky tip <= 0)%Q ->
        overWhiteKey w h tip j = false)
  /\ (forall tip j,
        (0 < w)%Q -> inRange j -> overWhiteKey w h tip j = true ->
        (0 < kx tip)%Q /\ (kx tip < w)%Q).
Proof.
  split_and!.
  - apply overWhiteKey_unique.
  - intros tip j k Hk. apply not_true_is_false. rewrite overWhiteKey_spec.
    intros (Hl & Hr & _). unfold boundaryX in Hk. rewrite Hk in Hl, Hr.
    set (ww := whiteKeyWidth w) in *. clearbody ww.
    assert (0 < ww)%Q as Hpos by lra.
    assert (j < k).
    { rewrite Zlt_Qlt. by apply (Qmult_lt_r _ _ ww). }
    assert (k < j + 1).
    { rewrite Zlt_Qlt, inject_Z_plus.
      apply (Qmult_lt_r _ _ ww); [done|].
      rewrite Qmult_plus_distr_l. change (inject_Z 1) with 1%Q. lra. }
    lia.
  - intros tip j Hy. apply not_true_is_false. rewrite overWhiteKey_spec.
    intros (_ & _ & Hy0 & Hy1).
    set (wh := whiteKeyHeight h) in *. clearbody wh. lra.
  - intros tip j Hw [Hj0 Hj8]. rewrite overWhiteKey_spec.
    intros (Hl & Hr & _). unfold numKeys in Hj8.
    assert (inject_Z 0 <= inject_Z j)%Q as Hq0 by (by rewrite <- Zle_Qle).
    assert (inject_Z j <= inject_Z 7)%Q as Hq7 by (rewrite <- Zle_Qle; lia).
    change (inject_Z 0) with 0%Q in Hq0. change (inject_Z 7) with 7%Q in Hq7.
    assert (w == 8 * whiteKeyWidth w)%Q as Hw8
      by (unfold whiteKeyWidth, numKeys; field).
    set (ww := whiteKeyWidth w) in *. clearbody ww.
    set (q := inject_Z j) in *. clearbody q.
    assert (0 < ww)%Q as Hww by lra.
    split; nra.
Qed.

End Fingertip.

(** ** What a press does whatever its outcome *)

Section Press.

Variables w h : Q.
Variable random : nat -> Q.
Variable millis : nat -> Q.

Lemma pressKey_effects j st :
  hands (pressKey random millis j st) = hands st
  /\ isKeyPressed (pressKey random millis j st)
     = <[j := true]> (isKeyPressed st)
  /\ keyColors (pressKey random millis j st) = <[j := blue]> (keyColors st)
  /\ lastKeyPressTime (pressKey random millis j st) = millis (millisCalls st)
  /\ millisCalls (pressKey random millis j st) = S (millisCalls st)
  /\ audio (pressKey random millis j st) = audio st ++ [j]
  /\ accepted (pressKey random millis j st) = accepted st
  /\ a (pressKey random millis j st) = a st
  /\ b (pressKey random millis j st) = b st
  /\ c (pressKey random millis j st) = c st
  /\ (timers (pressKey random millis j st)
      = timers st ++ [(RevertKeyColor j, 500)]
      \/ timers (pressKey random millis j st)
         = timers st ++ [(RevertKeyColor j, 500); (PlaySequenceCb, 2000);
                         (ClearMessage, 1000)]).
Proof.
  destruct (pressKey_cases random millis j st)
    as [(_ & _ & ->)|[(_ & _ & ->)|(_ & ->)]];
    unfold levelUp, checkLoss, pressCorrect, pressStarted;
    rewrite ?generateSequence_closed; open_state st; cbn;
    rewrite <- ?app_assoc; split_and!; try done; auto.
Qed.

(** X6: an accepted press, whether of the expected key or not, plays the
    key's note, marks the key as pressed, turns it blue, schedules its
    return to white after 500 ms, takes the clock's next reading as the time
    of the last press and puts the press on record; the hands are left as
    they were. *)
Theorem accepted_press_is_sounded hand j st :
  acceptsPress w h millis hand j st = true ->
  audio (keyStep w h random millis hand j st) = audio st ++ [j]
  /\ isKeyPressed (keyStep w h random millis hand j st)
     = <[j := true]> (isKeyPressed st)
  /\ keyColors (keyStep w h random millis hand j st)
     = <[j := blue]> (keyColors st)
  /\ timers (keyStep w h random millis hand j st) !! length (timers st)
     = Some (RevertKeyColor j, 500)
  /\ lastKeyPressTime (keyStep w h random millis hand j st)
     = millis (S (millisCalls st))
  /\ millisCalls (keyStep w h random millis hand j st)
     = S (S (millisCalls st))
  /\ accepted (keyStep w h random millis hand j st)
     = accepted st ++ [(j, millis (millisCalls st))]
  /\ hands (keyStep w h random millis hand j st) = hands st.
Proof.
  intros Hacc. rewrite (keyStep_accepts _ _ random _ _ _ _ Hacc).
  destruct (pressKey_effects j (pressNoted millis j st))
    as (-> & -> & -> & -> & -> & -> & -> & _ & _ & _ & Htimers).
  split_and!; try by open_state st.
  replace (length (timers st))
    with (length (timers (pressNoted millis j st))) by by open_state st.
  destruct Htimers as [->| ->]; by apply list_lookup_middle.
Qed.

End Press.

(** ** Frames *)

Section Frames.

Variables w h : Q.
Variable random : nat -> Q.
Variable millis : nat -> Q.

Local Abbreviation over hand j := (overWhiteKey w h (keypoints8 hand) j).
Local Abbreviation keyLoop hand :=
  (foldl (fun st j => keyStep w h random millis hand j st)).
Local Abbreviation release hand :=
  (foldl (fun (m : gmap Z bool) j =>
            if over hand j then m else <[j := false]> m)).

Lemma draw_no_message st :
  message st = EmptyString ->
  fst (draw w h random millis st)
  = foldl (handStep w h random millis) st (hands st).
Proof. intros Hmsg. unfold draw. by case_decide. Qed.

(** The marks of a key after an iteration of the inner loop. *)
Lemma keyStep_marks hand j st :
  isKeyPressed (keyStep w h random millis hand j st)
  = if over hand j
    then if acceptsPress w h millis hand j st
         then <[j := true]> (isKeyPressed st) else isKeyPressed st
    else <[j := false]> (isKeyPressed st).
Proof.
  destruct (keyStep_cases w h random millis hand j st)
    as [[Ho ->]|[(Ho & Hm & ->)|[(Ho & _ & Hacc & ->)|[Hacc ->]]]].
  - rewrite Ho. open_state st. reflexivity.
  - rewrite Ho. unfold acceptsPress. by rewrite Ho, Hm.
  - rewrite Ho, Hacc. open_state st. reflexivity.
  - rewrite Hacc. unfold acceptsPress in Hacc.
    destruct (over hand j); [|done].
    destruct (pressKey_effects random millis j (pressNoted millis j st))
      as (_ & -> & _). by open_state st.
Qed.

Lemma keyLoop_marks_other hand j keys : forall st,
  j ∉ keys ->
  isKeyPressed (keyLoop hand st keys) !! j = isKeyPressed st !! j.
Proof.
  induction keys as [|j' keys IH]; intros st Hj; [done|].
  apply not_elem_of_cons in Hj as [Hne Hj]. cbn -[keyStep].
  rewrite IH, keyStep_marks by done.
  destruct (over hand j'); [destruct (acceptsPress _ _ _ _ _ _)|];
    by rewrite ?lookup_insert_ne.
Qed.

Lemma keyLoop_marks hand j keys : forall st,
  NoDup keys -> j ∈ keys ->
  keyIsPressed j (keyLoop hand st keys) = true -> over hand j = true.
Proof.
  induction keys as [|j' keys IH]; intros st Hnd Hj;
    [by apply elem_of_nil in Hj|].
  apply NoDup_cons in Hnd as [Hj' Hnd]. cbn -[keyStep].
  apply elem_of_cons in Hj as [->|Hj]; [|by apply IH].
  unfold keyIsPressed. rewrite keyLoop_marks_other, keyStep_marks by done.
  destruct (over hand j'); [done|]. by rewrite lookup_insert_eq.
Qed.

(** A loop in which every key under the fingertip is already marked. *)
Lemma keyLoop_quiet hand keys : forall st,
  (forall j, j ∈ keys -> over hand j = true -> keyIsPressed j st = true) ->
  keyLoop hand st keys
  = set_isKeyPressed (release hand (isKeyPressed st) keys) st.
Proof.
  induction keys as [|j keys IH]; intros st Hheld; [by open_state st|].
  cbn -[keyStep]. unfold keyStep at 2.
  destruct (over hand j) eqn:Ho.
  - rewrite Hheld; [|by left|done]. cbn. apply IH.
    intros j' Hj'. apply Hheld. by right.
  - rewrite IH.
    + by open_state st.
    + intros j' Hj' Ho'. unfold keyIsPressed.
      replace (isKeyPressed
                 (set_isKeyPressed (<[j:=false]> (isKeyPressed st)) st))
        with (<[j:=false]> (isKeyPressed st)) by by open_state st.
      rewrite lookup_insert_ne by congruence.
      apply Hheld; [by right|done].
Qed.

Lemma release_lookup hand j keys : forall m : gmap Z bool,
  release hand m keys !! j
  = if decide (j ∈ keys /\ over hand j = false) then Some false else m !! j.
Proof.
  induction keys as [|j' keys IH]; intros m; cbn.
  { case_decide as H; [|done]. destruct H as [H _]. by apply elem_of_nil in H. }
  rewrite IH.
  destruct (decide (j ∈ keys /\ over hand j = false)) as [[Hin Ho]|Hn].
  { rewrite decide_True; [done|]. split; [by right|done]. }
  destruct (decide (j = j')) as [->|Hne].
  - destruct (over hand j') eqn:Ho.
    + rewrite decide_False; [done|]. by intros [_ ?].
    + rewrite lookup_insert_eq, decide_True; [done|]. split; [by left|done].
  - rewrite decide_False.
    + destruct (over hand j'); [done|]. by rewrite lookup_insert_ne.
    + intros [Hin Ho]. apply Hn. split; [|done].
      by apply elem_of_cons in Hin as [?|?].
Qed.

Lemma releaseKeys_lookup hand j (m : gmap Z bool) :
  releaseKeys w h hand m !! j
  = if decide (inRange j /\ over hand j = false) then Some false else m !! j.
Proof.
  unfold releaseKeys. rewrite release_lookup.
  repeat case_decide; try done; rewrite elem_of_keys in *; tauto.
Qed.

(** X3: a frame without a message in which no fingertip is over a key of
    the keyboard changes nothing but the pressed marks: it takes no press,
    reads no clock, sets no timer and plays nothing. Without hands it
    changes nothing at all; with a hand, every key of the keyboard ends
    unmarked. *)
Theorem idle_frame st :
  message st = EmptyString ->
  (forall hand j,
     hand ∈ hands st -> inRange j ->
     overWhiteKey w h (keypoints8 hand) j = false) ->
  fst (draw w h random millis st)
  = set_isKeyPressed (releaseAll w h (hands st) (isKeyPressed st)) st
  /\ (hands st = [] -> fst (draw w h random millis st) = st)
  /\ (hands st ≠ [] -> forall j, inRange j ->
      isKeyPressed (fst (draw w h random millis st)) !! j = Some false).
Proof.
  intros Hmsg Hidle. rewrite draw_no_message by done.
  assert (forall seen st',
            (forall hand j,
               hand ∈ seen -> inRange j -> over hand j = false) ->
            foldl (handStep w h random millis) st' seen
            = set_isKeyPressed (releaseAll w h seen (isKeyPressed st')) st')
    as Hfold.
  { induction seen as [|hand seen IH]; intros st' Hhs; [by open_state st'|].
    cbn -[handStep]. unfold handStep at 2. rewrite keyLoop_quiet.
    - rewrite IH; [by open_state st'|].
      intros hand' j Hh. apply Hhs. by right.
    - intros j Hj Ho. rewrite Hhs in Ho; [done|by left|by apply elem_of_keys]. }
  split_and!.
  - by apply Hfold.
  - intros Hnone. rewrite Hnone. by open_state st.
  - intros Hsome j Hj. rewrite Hfold by done.
    replace (isKeyPressed (set_isKeyPressed
                             (releaseAll w h (hands st) (isKeyPressed st)) st))
      with (releaseAll w h (hands st) (isKeyPressed st)) by by open_state st.
    destruct (hands st) as [|hand seen _] using rev_ind; [done|].
    unfold releaseAll. rewrite foldl_app. cbn.
    rewrite releaseKeys_lookup. case_decide as Hc; [done|].
    destruct Hc. split; [done|]. apply Hidle; [|done].
    apply elem_of_app. right. by left.
Qed.


(** X5: after a frame without a message at its beginning, a key of the
    keyboard is marked as pressed only if the fingertip of the last hand of
    the list is over it: the loop of each hand releases every key that hand
    is not over, also the keys another hand holds. *)
Theorem marks_follow_last_hand others hand j st :
  message st = EmptyString -> hands st = others ++ [hand] -> inRange j ->
  keyIsPressed j (fst (draw w h random millis st)) = true ->
  overWhiteKey w h (keypoints8 hand) j = true.
Proof.
  intros Hmsg Hhands Hj. rewrite draw_no_message, Hhands, foldl_app by done.
  cbn -[handStep]. unfold handStep at 1.
  apply keyLoop_marks; [apply NoDup_seqZ | by apply elem_of_keys].
Qed.

End Frames.

(** ** Presses, levels and timers of a frame *)

Section Frame2.

Variables w h : Q.
Variable random : nat -> Q.
Variable millis : nat -> Q.

Local Abbreviation over hand j := (overWhiteKey w h (keypoints8 hand) j).
Local Abbreviation keyLoop hand :=
  (foldl (fun st j => keyStep w h random millis hand j st)).

Lemma keyStep_accepted hand j st :
  accepted (keyStep w h random millis hand j st)
  = if acceptsPress w h millis hand j st
    then accepted st ++ [(j, millis (millisCalls st))] else accepted st.
Proof.
  destruct (keyStep_cases w h random millis hand j st)
    as [[Ho ->]|[(Ho & Hm & ->)|[(Ho & _ & Hacc & ->)|[Hacc ->]]]].
  - unfold acceptsPress. rewrite Ho. by open_state st.
  - unfold acceptsPress. by rewrite Ho, Hm.
  - rewrite Hacc. by open_state st.
  - rewrite Hacc.
    destruct (pressKey_effects random millis j (pressNoted millis j st))
      as (_ & _ & _ & _ & _ & _ & -> & _). by open_state st.
Qed.

Lemma acceptsPress_over hand j st :
  acceptsPress w h millis hand j st = true -> over hand j = true.
Proof.
  unfold acceptsPress. by intros [[? _]%andb_true_iff _]%andb_true_iff.
Qed.

Lemma keyLoop_accepted_idle hand keys : forall st,
  (forall j, j ∈ keys -> over hand j = false) ->
  accepted (keyLoop hand st keys) = accepted st.
Proof.
  induction keys as [|j keys IH]; intros st Hidle; [done|].
  cbn -[keyStep]. rewrite IH by (intros j' Hj'; apply Hidle; by right).
  rewrite keyStep_accepted.
  destruct (acceptsPress _ _ _ _ _ _) eqn:Hacc; [|done].
  apply acceptsPress_over in Hacc. rewrite Hidle in Hacc; [done|by left].
Qed.

Lemma keyLoop_accepted hand keys : forall st,
  NoDup keys ->
  accepted st `prefix_of` accepted (keyLoop hand st keys)
  /\ (length (accepted (keyLoop hand st keys)) <= S (length (accepted st)))%nat.
Proof.
  induction keys as [|j keys IH]; intros st Hnd; [cbn; split; [done|lia]|].
  apply NoDup_cons in Hnd as [Hj Hnd]. cbn -[keyStep].
  destruct (over hand j) eqn:Ho.
  - rewrite keyLoop_accepted_idle.
    + rewrite keyStep_accepted. destruct (acceptsPress _ _ _ _ _ _).
      * split; [by apply prefix_app_r|]. rewrite length_app. cbn. lia.
      * split; [done|lia].
    + intros j' Hj'. apply not_true_is_false. intros Ho'.
      rewrite (overWhiteKey_unique w h _ _ _ Ho' Ho) in Hj'. done.
  - destruct (IH (keyStep w h random millis hand j st) Hnd) as [Hpre Hlen].
    rewrite keyStep_accepted in Hpre, Hlen.
    destruct (acceptsPress _ _ _ _ _ _) eqn:Hacc; [|done].
    apply acceptsPress_over in Hacc. congruence.
Qed.

(** X2: a frame takes at most one press for each hand it sees, whatever the
    clock does during the frame, and it only ever adds to the record of
    accepted presses. *)
Theorem one_press_per_hand st :
  accepted st `prefix_of` accepted (fst (draw w h random millis st))
  /\ (length (accepted (fst (draw w h random millis st)))
      <= length (accepted st) + length (hands st))%nat.
Proof.
  unfold draw. case_decide as Hmsg; clear Hmsg.
  { unfold displayMessage.
    destruct (decide _) as [_|_]; open_state st; cbn; split; (done || lia). }
  cbn -[handStep]. generalize (hands st). intros seen. revert st.
  induction seen as [|hand seen IH]; intros st; [split; [done|cbn; lia]|].
  cbn -[handStep].
  destruct (IH (handStep w h random millis st hand)) as [Hpre Hlen].
  destruct (keyLoop_accepted hand (seqZ 0 numKeys) st (NoDup_seqZ _ _))
    as [Hpre1 Hlen1].
  change (foldl _ st (seqZ 0 numKeys))
    with (handStep w h random millis st hand) in Hpre1, Hlen1.
  split; [by etrans|]. cbn [length]. lia.
Qed.

(** The three outcomes of an iteration of the inner loop for the level. *)
Lemma keyStep_outcome hand j st :
  (sequenceLength (keyStep w h random millis hand j st) = sequenceLength st
   /\ gameSequence (keyStep w h random millis hand j st) = gameSequence st
   /\ message (keyStep w h random millis hand j st) = message st)
  \/ (sequenceLength (keyStep w h random millis hand j st)
      = S (sequenceLength st)
      /\ message (keyStep w h random millis hand j st) = msgVictory
      /\ playerSequence (keyStep w h random millis hand j st) = []
      /\ currentNoteIndex (keyStep w h random millis hand j st) = 0%nat)
  \/ (sequenceLength (keyStep w h random millis hand j st) = 1%nat
      /\ message (keyStep w h random millis hand j st) = msgLoss
      /\ playerSequence (keyStep w h random millis hand j st) = []
      /\ currentNoteIndex (keyStep w h random millis hand j st) = 0%nat).
Proof.
  destruct (keyStep_cases w h random millis hand j st)
    as [[_ ->]|[(_ & _ & ->)|[(_ & _ & _ & ->)|[_ ->]]]];
    try (left; by open_state st).
  destruct (pressKey_cases random millis j (pressNoted millis j st))
    as [(_ & _ & ->)|[(_ & _ & ->)|(_ & ->)]].
  - left. by open_state st.
  - right; left. unfold levelUp. rewrite generateSequence_closed.
    by open_state st.
  - right; right. unfold checkLoss. rewrite generateSequence_closed.
    by open_state st.
Qed.

(** X7: an iteration of the inner loop either leaves the level, the
    sequence and the message as they are, or raises the level by one with
    the victory message, or sets it to 1 with the failure message, in both
    cases with an empty [playerSequence] and the cursor at 0; the arrival of
    hands and the firing of a timer never change the sequence engine's
    variables; and the level of the running sketch is never below 1. *)
Theorem level_moves_by_steps :
  (forall hand j st,
     (sequenceLength (keyStep w h random millis hand j st) = sequenceLength st
      /\ gameSequence (keyStep w h random millis hand j st) = gameSequence st
      /\ message (keyStep w h random millis hand j st) = message st)
     \/ (sequenceLength (keyStep w h random millis hand j st)
         = S (sequenceLength st)
         /\ message (keyStep w h random millis hand j st) = msgVictory
         /\ playerSequence (keyStep w h random millis hand j st) = []
         /\ currentNoteIndex (keyStep w h random millis hand j st) = 0%nat)
     \/ (sequenceLength (keyStep w h random millis hand j st) = 1%nat
         /\ message (keyStep w h random millis hand j st) = msgLoss
         /\ playerSequence (keyStep w h random millis hand j st) = []
         /\ currentNoteIndex (keyStep w h random millis hand j st) = 0%nat))
  /\ (forall e st, e ≠ Frame ->
        sequenceLength (step w h random millis st e) = sequenceLength st
        /\ gameSequence (step w h random millis st e) = gameSequence st
        /\ playerSequence (step w h random millis st e) = playerSequence st
        /\ currentNoteIndex (step w h random millis st e)
           = currentNoteIndex st)
  /\ (forall st, reachable w h random millis st ->
        (1 <= sequenceLength st)%nat).
Proof.
  split_and!.
  - apply keyStep_outcome.
  - intros e st He. destruct e as [|results|k]; [done|by open_state st|].
    cbn -[fire]. destruct (timers st !! k) as [[cb delay]|]; [|done].
    destruct cb; cbn -[playSequence]; rewrite ?playSequence_closed;
      try destruct (noteLoaded _); by open_state st.
  - intros st Hreach.
    destruct (reachable_inv _ _ _ _ _ Hreach) as [Hlev _ _ Hopen]. lia.
Qed.

(** How the pending timers change. *)
Lemma keyStep_timers hand j st :
  timers st `prefix_of` timers (keyStep w h random millis hand j st).
Proof.
  destruct (keyStep_cases w h random millis hand j st)
    as [[_ ->]|[(_ & _ & ->)|[(_ & _ & _ & ->)|[_ ->]]]];
    try by open_state st.
  destruct (pressKey_effects random millis j (pressNoted millis j st))
    as (_ & _ & _ & _ & _ & _ & _ & _ & _ & _ & [-> | ->]);
    open_state st; cbn; by eexists.
Qed.

Lemma delete_beyond {A} (l : list A) : forall k,
  l !! k = None -> delete k l = l.
Proof.
  induction l as [|x l IH]; intros k Hk; [by destruct k|].
  destruct k as [|k]; [done|]. cbn in *. by rewrite IH.
Qed.

(** X9: a pending timer is never cancelled. A frame and the arrival of
    hands keep every pending timer, in order, and at most add timers after
    them; the firing of a timer removes that one timer, keeps the others in
    order and at most adds timers after them. *)
Theorem timers_are_never_cancelled st :
  timers st `prefix_of` timers (step w h random millis st Frame)
  /\ (forall results,
        timers (step w h random millis st (HandsDetected results))
        = timers st)
  /\ (forall k,
        delete k (timers st)
        `prefix_of` timers (step w h random millis st (TimerFires k))).
Proof.
  split_and!.
  - cbn -[draw]. unfold draw. case_decide as Hmsg; clear Hmsg.
    { unfold displayMessage. destruct (decide _) as [_|_]; by open_state st. }
    cbn -[handStep]. generalize (hands st). intros seen. revert st.
    induction seen as [|hand seen IH]; intros st; [done|].
    cbn -[handStep]. etrans; [|apply IH].
    unfold handStep. generalize (seqZ 0 numKeys). intros keys. revert st.
    induction keys as [|j keys IHk]; intros st; [done|].
    cbn -[keyStep]. etrans; [|apply IHk]. apply keyStep_timers.
  - intros results. by open_state st.
  - intros k. cbn -[fire].
    destruct (timers st !! k) as [[cb delay]|] eqn:Hk.
    + destruct (fire_timers cb (set_timers (delete k (timers st)) st))
        as [more ->]. exists more. by open_state st.
    + by rewrite delete_beyond.
Qed.

(** X14: a highlight and its return to white undo each other. For a key
    that is white, the replay's note callback followed by the callback it
    schedules leaves the colours as they were, and so does an accepted
    press followed by the callback it schedules. *)
Theorem highlight_then_revert hand j st :
  keyColors st !! j = Some white ->
  keyColors (fire (RevertKeyColor j) (fire (ReplayNote j) st)) = keyColors st
  /\ (acceptsPress w h millis hand j st = true ->
      keyColors (fire (RevertKeyColor j)
                   (keyStep w h random millis hand j st))
      = keyColors st).
Proof.
  intros Hwhite.
  assert (forall st', keyColors (fire (RevertKeyColor j) st')
                      = <[j := white]> (keyColors st')) as Hrev
    by (intros st'; by open_state st').
  rewrite !Hrev. split.
  - cbn. destruct (noteLoaded j).
    + replace (keyColors _) with (<[j := blue]> (keyColors st))
        by by open_state st.
      rewrite insert_insert_eq. by apply insert_id.
    + by apply insert_id.
  - intros Hacc.
    rewrite (keyStep_accepts _ _ random _ _ _ _ Hacc).
    destruct (pressKey_effects random millis j (pressNoted millis j st))
      as (_ & _ & -> & _).
    replace (keyColors (pressNoted millis j st)) with (keyColors st)
      by by open_state st.
    rewrite insert_insert_eq. by apply insert_id.
Qed.

End Frame2.

(** ** More invariants of the running sketch *)

Section Invariants.

Variables w h : Q.
Variable random : nat -> Q.
Variable millis : nat -> Q.

Lemma noteLoaded_inRange j : noteLoaded j = true <-> inRange j.
Proof.
  unfold noteLoaded, inRange. rewrite andb_true_iff, Z.leb_le, Z.ltb_lt. done.
Qed.

(** *** The tint of the message *)

Lemma keyStep_abc hand j st :
  a (keyStep w h random millis hand j st) = a st
  /\ b (keyStep w h random millis hand j st) = b st
  /\ c (keyStep w h random millis hand j st) = c st.
Proof.
  destruct (keyStep_cases w h random millis hand j st)
    as [[_ ->]|[(_ & _ & ->)|[(_ & _ & _ & ->)|[_ ->]]]];
    try by open_state st.
  destruct (pressKey_effects random millis j (pressNoted millis j st))
    as (_ & _ & _ & _ & _ & _ & _ & -> & -> & -> & _). by open_state st.
Qed.

Lemma reachable_tintInv st : reachable w h random millis st -> tintInv st.
Proof.
  intros [events ->]. apply run_invariant.
  - intros hand j st (Ha & Hb & Hc & Hm).
    destruct (keyStep_abc hand j st) as (Ha' & Hb' & Hc').
    unfold tintInv. rewrite Ha', Hb', Hc'. split_and!; try done.
    destruct (keyStep_outcome w h random millis hand j st)
      as [(_ & _ & ->)|[(_ & -> & _)|(_ & -> & _)]]; auto.
  - intros shown st (Ha & Hb & Hc & Hm). unfold displayMessage.
    destruct (decide _) as [_|_]; by open_state st.
  - intros results st Hinv. by open_state st.
  - intros k cb delay st _ (Ha & Hb & Hc & Hm).
    destruct cb; cbn -[playSequence]; rewrite ?playSequence_closed;
      try destruct (noteLoaded _); open_state st; cbn in *;
      split_and!; auto.
  - unfold start, setup. rewrite generateSequence_closed.
    split_and!; auto.
Qed.

(** X12: in the running sketch the scratch colours are at 0 between events
    and the message is empty, the victory message or the failure message;
    so a frame that shows the victory message fills it with green, a frame
    that shows the failure message fills it with red, and either frame
    leaves the state exactly as it was. *)
Theorem message_tint st :
  reachable w h random millis st ->
  tintInv st
  /\ (message st = msgVictory ->
      draw w h random millis st
      = (st, messageCalls w h (color3 0 255 0) msgVictory))
  /\ (message st = msgLoss ->
      draw w h random millis st
      = (st, messageCalls w h (color3 255 0 0) msgLoss)).
Proof.
  intros Hreach. pose proof (reachable_tintInv st Hreach) as Hinv.
  split; [done|]. destruct Hinv as (Ha & Hb & Hc & _).
  split; intros Hmsg; unfold draw, displayMessage, messageCalls;
    rewrite Hmsg; open_state st; cbn in *; by subst.
Qed.

End Invariants.

Section Invariants2.

Variables w h : Q.
Variable random : nat -> Q.
Variable millis : nat -> Q.

(** *** The first half second, and the keys on record *)

Lemma lateInv_same st st' :
  accepted st' = accepted st ->
  lastKeyPressTime st' = lastKeyPressTime st ->
  lateInv st -> lateInv st'.
Proof. unfold lateInv. by intros -> ->. Qed.

Lemma keyStep_late hand j st :
  clockMonotone millis -> inRange j ->
  lateInv st -> lateInv (keyStep w h random millis hand j st).
Proof.
  intros Hclock Hj Hinv.
  destruct (keyStep_cases w h random millis hand j st)
    as [[_ ->]|[(_ & _ & ->)|[(_ & _ & _ & ->)|[Hacc ->]]]];
    try (kept lateInv_same Hinv st).
  destruct (pressKey_effects random millis j (pressNoted millis j st))
    as (_ & _ & _ & Hlast & _ & _ & Hlog & _).
  unfold lateInv. rewrite Hlast, Hlog. clear Hlast Hlog.
  unfold acceptsPress in Hacc. apply andb_true_iff in Hacc as [_ Hdeb].
  apply Qltb_lt in Hdeb. destruct Hinv as [Hpos Hold].
  pose proof (Hclock (millisCalls st)) as Hmono.
  open_state st. cbn in *. unfold debounceTime in *. split; [lra|].
  apply Forall_app. split; [done|]. apply Forall_singleton. cbn.
  split; [done|lra].
Qed.

(** X13: with a clock that never goes back, every press the sketch accepts
    is of a key of the keyboard and passes the debounce test more than 500
    ms after the sketch's time zero: a press in the first half second is
    never taken. *)
Theorem no_press_in_first_half_second (events : list Event)
    (i : nat) (j : Z) (t : Q) :
  clockMonotone millis ->
  accepted (run w h random millis (start random) events) !! i = Some (j, t) ->
  inRange j /\ (debounceTime < t)%Q.
Proof.
  intros Hclock Hi.
  assert (lateInv (run w h random millis (start random) events)) as [_ Hlog].
  { apply run_invariant_keys.
    - intros hand j' st Hj'. by apply keyStep_late.
    - intros shown st Hinv. unfold displayMessage.
      destruct (decide _) as [_|_]; kept lateInv_same Hinv st.
    - intros results st Hinv. kept lateInv_same Hinv st.
    - intros k cb delay st _ Hinv.
      destruct cb; cbn -[playSequence]; rewrite ?playSequence_closed;
        try destruct (noteLoaded _); kept lateInv_same Hinv st.
    - unfold start, setup. rewrite generateSequence_closed.
      split; cbn; [done|].
      change (accepted (preload globals)) with (@nil (Z * Q)).
      constructor. }
  rewrite Forall_lookup in Hlog. exact (Hlog i (j, t) Hi).
Qed.

(** *** Progress *)

Lemma triangle_closed n : (2 * triangle n = n * (n + 1))%nat.
Proof. induction n as [|n IH]; cbn [triangle]; lia. Qed.

Lemma progressInv_same st st' :
  gameSequence st' = gameSequence st ->
  playerSequence st' = playerSequence st ->
  currentNoteIndex st' = currentNoteIndex st ->
  sequenceLength st' = sequenceLength st ->
  accepted st' = accepted st ->
  progressInv st -> progressInv st'.
Proof.
  intros Hg Hp Hc Hl Ha [Hinv Hle]. split; [by eapply engineInv_same|].
  unfold pressesNeeded in *. by rewrite Hp, Hl, Ha.
Qed.

Lemma keyStep_progress hand j st :
  progressInv st -> progressInv (keyStep w h random millis hand j st).
Proof.
  intros Hinv. pose proof Hinv as [Heng Hle].
  split; [by apply keyStep_inv|].
  destruct Heng as [Hlev Hcur Hpre Hopen]. unfold pressesNeeded in *.
  destruct (keyStep_cases w h random millis hand j st)
    as [[_ ->]|[(_ & _ & ->)|[(_ & _ & _ & ->)|[_ ->]]]];
    try by open_state st.
  destruct (pressKey_cases random millis j (pressNoted millis j st))
    as [(_ & _ & ->)|[(_ & Hfull & ->)|(_ & ->)]].
  - open_state st. cbn in *. rewrite !length_app. cbn. lia.
  - unfold levelUp. rewrite generateSequence_closed.
    assert (S (length (playerSequence st)) = sequenceLength st) as Hlen.
    { rewrite <- Hlev.
      replace (gameSequence st) with (gameSequence (pressNoted millis j st))
        by by open_state st.
      rewrite <- Hfull, length_app. open_state st. cbn. lia. }
    open_state st. cbn in *. rewrite length_app. cbn.
    destruct level as [|level]; [lia|]. cbn [triangle pred] in *. lia.
  - unfold checkLoss. rewrite generateSequence_closed.
    open_state st. cbn. lia.
Qed.

(** X8: in the running sketch the number of accepted presses is at least
    the number it takes to stand where the player stands: with the level at
    L, the sum 1 + 2 + ... + (L - 1), which is (L - 1) * L / 2, for the
    sequences of the levels passed since the last failure, plus the length
    of [playerSequence]. No level is reached without the presses for it. *)
Theorem level_is_earned st :
  reachable w h random millis st ->
  (pressesNeeded st <= length (accepted st))%nat
  /\ (2 * pressesNeeded st
      = (sequenceLength st - 1) * sequenceLength st
        + 2 * length (playerSequence st))%nat.
Proof.
  intros [events ->].
  assert (progressInv (run w h random millis (start random) events))
    as [Heng Hle].
  { apply run_invariant.
    - apply keyStep_progress.
    - intros shown st Hinv. unfold displayMessage.
      destruct (decide _) as [_|_]; kept progressInv_same Hinv st.
    - intros results st Hinv. kept progressInv_same Hinv st.
    - intros k cb delay st _ Hinv.
      destruct cb; cbn -[playSequence]; rewrite ?playSequence_closed;
        try destruct (noteLoaded _); kept progressInv_same Hinv st.
    - split; [apply start_inv|].
      unfold start, setup, pressesNeeded. rewrite generateSequence_closed.
      cbn. rewrite preload_sequenceLength. cbn. lia. }
  split; [done|]. destruct Heng as [Hlev _ _ Hopen].
  unfold pressesNeeded.
  destruct (sequenceLength (run w h random millis (start random) events))
    as [|level]; [lia|].
  cbn [pred]. pose proof (triangle_closed level). nia.
Qed.

End Invariants2.

Section Invariants3.

Variables w h : Q.
Variable random : nat -> Q.
Variable millis : nat -> Q.

(** *** The arrays indexed by key *)

Lemma noteTimers_no_revert i rest :
  Forall (fun t : Timer => forall j, t.1 = RevertKeyColor j -> inRange j)
         (noteTimers i rest).
Proof.
  revert i. induction rest as [|n rest IH]; intros i; cbn; constructor; auto.
  by intros j.
Qed.

Lemma keyColors_insert (colors : gmap Z Color) j tint :
  inRange j -> tint = white \/ tint = blue ->
  ((forall j', inRange j' ->
      colors !! j' = Some white \/ colors !! j' = Some blue)
   /\ (forall j', ~ inRange j' -> colors !! j' = None)) ->
  (forall j', inRange j' ->
     <[j := tint]> colors !! j' = Some white
     \/ <[j := tint]> colors !! j' = Some blue)
  /\ (forall j', ~ inRange j' -> <[j := tint]> colors !! j' = None).
Proof.
  intros Hj Htint [Hin Hout]. split; intros j' Hj'.
  - destruct (decide (j = j')) as [->|Hne].
    + rewrite lookup_insert_eq. by destruct Htint as [-> | ->]; auto.
    + rewrite lookup_insert_ne by done. by apply Hin.
  - rewrite lookup_insert_ne by congruence. by apply Hout.
Qed.

Lemma isKeyPressed_insert (marks : gmap Z bool) j mark :
  inRange j ->
  (forall j', is_Some (marks !! j') <-> inRange j') ->
  forall j', is_Some (<[j := mark]> marks !! j') <-> inRange j'.
Proof.
  intros Hj Hdom j'. destruct (decide (j = j')) as [->|Hne].
  - rewrite lookup_insert_eq. split; [done|]. by eexists.
  - by rewrite lookup_insert_ne.
Qed.

Lemma keyStep_keyboard hand j st :
  inRange j -> keyboardInv st ->
  keyboardInv (keyStep w h random millis hand j st).
Proof.
  intros Hj (Hin & Hout & Hdom & Hrev & Haud).
  destruct (keyStep_cases w h random millis hand j st)
    as [[_ ->]|[(_ & _ & ->)|[(_ & _ & _ & ->)|[_ ->]]]].
  - split_and!; try by open_state st.
    replace (isKeyPressed _) with (<[j := false]> (isKeyPressed st))
      by by open_state st.
    by apply isKeyPressed_insert.
  - done.
  - split_and!; by open_state st.
  - destruct (pressKey_effects random millis j (pressNoted millis j st))
      as (_ & Hm & Hc & _ & _ & Ha & _ & _ & _ & _ & Ht).
    unfold keyboardInv. rewrite Hm, Hc, Ha. clear Hm Hc Ha.
    replace (keyColors (pressNoted millis j st)) with (keyColors st)
      by by open_state st.
    replace (isKeyPressed (pressNoted millis j st)) with (isKeyPressed st)
      by by open_state st.
    replace (audio (pressNoted millis j st)) with (audio st)
      by by open_state st.
    replace (timers (pressNoted millis j st)) with (timers st) in Ht
      by by open_state st.
    destruct (keyColors_insert (keyColors st) j blue Hj) as [Hin' Hout'];
      [by right|done|].
    split_and!; try done.
    + by apply isKeyPressed_insert.
    + destruct Ht as [-> | ->]; (apply Forall_app; split; [done|]);
        repeat (apply Forall_cons; split); try (by constructor);
        cbn; intros j' ?; by simplify_eq.
    + apply Forall_app. split; [done|]. by apply Forall_singleton.
Qed.

Lemma fire_keyboard k cb delay st :
  timers st !! k = Some (cb, delay) -> keyboardInv st ->
  keyboardInv (fire cb (set_timers (delete k (timers st)) st)).
Proof.
  intros Hk (Hin & Hout & Hdom & Hrev & Haud).
  pose proof (Forall_delete _ _ k Hrev) as Hrev'.
  rewrite Forall_lookup in Hrev. specialize (Hrev k (cb, delay) Hk).
  destruct cb as [j| |n| |]; cbn -[playSequence].
  - destruct (keyColors_insert (keyColors st) j white) as [Hin' Hout'];
      [by apply Hrev|by left|done|].
    split_and!; by open_state st.
  - rewrite playSequence_closed. split_and!; try by open_state st.
    replace (timers _)
      with (delete k (timers st) ++ noteTimers 0 (gameSequence st)
            ++ [(ReplayFinished, Z.of_nat (length (gameSequence st)) * 500)])
      by by open_state st.
    apply Forall_app. split; [done|]. apply Forall_app.
    split; [apply noteTimers_no_revert|]. by repeat constructor.
  - destruct (noteLoaded n) eqn:Hn; [|split_and!; by open_state st].
    apply noteLoaded_inRange in Hn.
    destruct (keyColors_insert (keyColors st) n blue) as [Hin' Hout'];
      [done|by right|done|].
    split_and!; try by open_state st.
    + replace (timers _)
        with (delete k (timers st) ++ [(RevertKeyColor n, 500)])
        by by open_state st.
      apply Forall_app. split; [done|]. apply Forall_singleton. cbn.
      intros j' [= <-]. done.
    + replace (audio _) with (audio st ++ [n]) by by open_state st.
      apply Forall_app. split; [done|]. by apply Forall_singleton.
  - split_and!; by open_state st.
  - split_and!; by open_state st.
Qed.

Local Abbreviation preloadLoop :=
  (foldl (fun st i =>
            let st := set_isKeyPressed (<[i := false]> (isKeyPressed st)) st in
            set_keyColors (<[i := white]> (keyColors st)) st)).

(** What the loop of [preload] leaves in the two arrays. *)
Lemma preload_lookup keys : forall st j,
  keyColors (preloadLoop st keys) !! j
  = (if decide (j ∈ keys) then Some white else keyColors st !! j)
  /\ isKeyPressed (preloadLoop st keys) !! j
     = (if decide (j ∈ keys) then Some false else isKeyPressed st !! j).
Proof.
  induction keys as [|i keys IH]; intros st j.
  { rewrite !decide_False by apply not_elem_of_nil. done. }
  set (st1 := set_keyColors (<[i := white]>
       (keyColors (set_isKeyPressed (<[i := false]> (isKeyPressed st)) st)))
       (set_isKeyPressed (<[i := false]> (isKeyPressed st)) st)).
  change (preloadLoop st (i :: keys)) with (preloadLoop st1 keys).
  destruct (IH st1 j) as [-> ->]. subst st1.
  replace (keyColors (set_keyColors _ _))
    with (<[i := white]> (keyColors st)) by by open_state st.
  replace (isKeyPressed (set_keyColors _ _))
    with (<[i := false]> (isKeyPressed st)) by by open_state st.
  destruct (decide (j ∈ keys)) as [Hin|Hout].
  { rewrite !decide_True by (by right). done. }
  destruct (decide (j = i)) as [->|Hne].
  - rewrite !decide_True by (by left). by rewrite !lookup_insert_eq.
  - rewrite !decide_False by (by intros [?|?]%elem_of_cons).
    by rewrite !lookup_insert_ne.
Qed.

Lemma start_keyboard : keyboardInv (start random).
Proof.
  unfold start, setup. rewrite generateSequence_closed.
  unfold keyboardInv. cbn [keyColors isKeyPressed timers audio].
  assert (forall j, keyColors (preload globals) !! j
                    = if decide (inRange j) then Some white else None) as Hc.
  { intros j.
    change (preload globals) with (preloadLoop globals (seqZ 0 numKeys)).
    destruct (preload_lookup (seqZ 0 numKeys) globals j) as [-> _].
    repeat case_decide; try done; rewrite elem_of_keys in *; tauto. }
  assert (forall j, isKeyPressed (preload globals) !! j
                    = if decide (inRange j) then Some false else None) as Hm.
  { intros j.
    change (preload globals) with (preloadLoop globals (seqZ 0 numKeys)).
    destruct (preload_lookup (seqZ 0 numKeys) globals j) as [_ ->].
    repeat case_decide; try done; rewrite elem_of_keys in *; tauto. }
  split_and!.
  - intros j Hj. rewrite Hc. rewrite decide_True by done. by left.
  - intros j Hj. rewrite Hc. by rewrite decide_False.
  - intros j. rewrite Hm. case_decide; [by split; eauto|].
    split; [by intros [? ?]|done].
  - apply Forall_cons. split; [|by constructor]. cbn. intros n [=].
  - constructor.
Qed.

Lemma reachable_keyboard st : reachable w h random millis st -> keyboardInv st.
Proof.
  intros [events ->]. apply run_invariant_keys.
  - apply keyStep_keyboard.
  - intros shown st (Hin & Hout & Hdom & Hrev & Haud). unfold displayMessage.
    destruct (decide _) as [_|_]; split_and!; by open_state st.
  - intros results st (Hin & Hout & Hdom & Hrev & Haud).
    split_and!; by open_state st.
  - apply fire_keyboard.
  - apply start_keyboard.
Qed.

(** X10: in the running sketch the colour array and the pressed-mark array
    hold an entry for each key 0..7 and for no other index, every colour is
    white or blue, every pending return to white is for a key of the
    keyboard and every note played is one of the eight; so [drawPiano]
    never fills a key with a missing colour. *)
Theorem keyboard_arrays_stay_whole st :
  reachable w h random millis st ->
  keyboardInv st /\ Fill None ∉ drawPiano w h (keyColors st).
Proof.
  intros Hreach. pose proof (reachable_keyboard st Hreach) as Hinv.
  split; [done|]. destruct Hinv as (Hin & _).
  unfold drawPiano. rewrite elem_of_app, !list_elem_of_In, !in_flat_map.
  intros [(i & Hi & Hfill)|(i & Hi & Hfill)].
  - apply list_elem_of_In, elem_of_keys in Hi.
    destruct (Hin i Hi) as [Hc|Hc]; rewrite Hc in Hfill;
      cbn in Hfill; intuition congruence.
  - cbn in Hfill. intuition congruence.
Qed.

(** *** The notes of the replay *)

Lemma noteTimers_loaded i rest :
  Forall inRange rest ->
  Forall (fun t : Timer => forall n, t.1 = ReplayNote n -> noteLoaded n = true)
         (noteTimers i rest).
Proof.
  revert i. induction rest as [|n rest IH]; intros i Hall; cbn; constructor.
  - cbn. intros n' [= <-]. apply noteLoaded_inRange.
    by apply Forall_cons in Hall as [? _].
  - apply IH. by apply Forall_cons in Hall as [_ ?].
Qed.

Lemma keyStep_replay hand j st :
  randomInRange random ->
  replayInv st -> replayInv (keyStep w h random millis hand j st).
Proof.
  intros Hrange [Hseq Htim].
  destruct (keyStep_cases w h random millis hand j st)
    as [[_ ->]|[(_ & _ & ->)|[(_ & _ & _ & ->)|[_ ->]]]];
    try (split; by open_state st).
  destruct (pressKey_effects random millis j (pressNoted millis j st))
    as (_ & _ & _ & _ & _ & _ & _ & _ & _ & _ & Ht).
  replace (timers (pressNoted millis j st)) with (timers st) in Ht
    by by open_state st.
  split.
  - destruct (pressKey_cases random millis j (pressNoted millis j st))
      as [(_ & _ & ->)|[(_ & _ & ->)|(_ & ->)]].
    + by open_state st.
    + unfold levelUp. rewrite generateSequence_closed.
      cbn [gameSequence]. by apply drawnKeys_in_range.
    + unfold checkLoss. rewrite generateSequence_closed.
      cbn [gameSequence]. by apply drawnKeys_in_range.
  - destruct Ht as [-> | ->]; (apply Forall_app; split; [done|]);
      repeat (apply Forall_cons; split); try (by constructor);
      cbn; intros n' ?; by simplify_eq.
Qed.

Lemma fire_replay k cb delay st :
  timers st !! k = Some (cb, delay) -> replayInv st ->
  replayInv (fire cb (set_timers (delete k (timers st)) st)).
Proof.
  intros Hk [Hseq Htim].
  pose proof (Forall_delete _ _ k Htim) as Htim'.
  destruct cb as [j| |n| |]; cbn -[playSequence];
    rewrite ?playSequence_closed; try destruct (noteLoaded n);
    split; try by open_state st.
  - replace (timers _)
      with (delete k (timers st) ++ noteTimers 0 (gameSequence st)
            ++ [(ReplayFinished, Z.of_nat (length (gameSequence st)) * 500)])
      by by open_state st.
    apply Forall_app. split; [done|]. apply Forall_app.
    split; [by apply noteTimers_loaded|]. by repeat constructor.
  - replace (timers _) with (delete k (timers st) ++ [(RevertKeyColor n, 500)])
      by by open_state st.
    apply Forall_app. split; [done|]. by repeat constructor.
Qed.

(** X11: when [random] keeps to its range, every key of [gameSequence] is
    one of the keyboard in every state of the running sketch, and every
    pending step of a replay is for a loaded note: no replay callback ever
    fails on a missing clip, each one plays its note. *)
Theorem replay_never_misses_a_clip st :
  randomInRange random -> reachable w h random millis st ->
  Forall inRange (gameSequence st)
  /\ (forall k n delay,
        timers st !! k = Some (ReplayNote n, delay) ->
        noteLoaded n = true
        /\ audio (step w h random millis st (TimerFires k))
           = audio st ++ [n]).
Proof.
  intros Hrange [events ->].
  assert (replayInv (run w h random millis (start random) events))
    as [Hseq Htim].
  { apply run_invariant.
    - intros hand j st. by apply keyStep_replay.
    - intros shown st [? ?]. unfold displayMessage.
      destruct (decide _) as [_|_]; split; by open_state st.
    - intros results st [? ?]. split; by open_state st.
    - apply fire_replay.
    - unfold start, setup. rewrite generateSequence_closed. split.
      + cbn [gameSequence]. by apply drawnKeys_in_range.
      + by repeat constructor. }
  split; [done|]. intros k n delay Hk.
  rewrite Forall_lookup in Htim. pose proof (Htim k _ Hk n eq_refl) as Hn.
  split; [done|]. cbn -[fire]. rewrite Hk. cbn [fire]. rewrite Hn.
  generalize (run w h random millis (start random) events). intros st.
  by open_state st.
Qed.

End Invariants3.

Section Rejected.

Variables w h : Q.
Variable random : nat -> Q.
Variable millis : nat -> Q.


End Rejected.

(** ** The further properties in the example world *)

Lemma idle_frame_witness :
  fst (draw 640 480 demoRandom demoMillis
         (gotHands [demoFarHand] (start demoRandom)))
  = set_isKeyPressed
      (releaseAll 640 480 [demoFarHand]
         (isKeyPressed (gotHands [demoFarHand] (start demoRandom))))
      (gotHands [demoFarHand] (start demoRandom))
  /\ (hands (gotHands [demoFarHand] (start demoRandom)) = [] ->
      fst (draw 640 480 demoRandom demoMillis
             (gotHands [demoFarHand] (start demoRandom)))
      = gotHands [demoFarHand] (start demoRandom))
  /\ (hands (gotHands [demoFarHand] (start demoRandom)) ≠ [] ->
      forall j, inRange j ->
      isKeyPressed
        (fst (draw 640 480 demoRandom demoMillis
                (gotHands [demoFarHand] (start demoRandom)))) !! j
      = Some false).
Proof.
  apply (idle_frame 640 480 demoRandom demoMillis
           (gotHands [demoFarHand] (start demoRandom))).
  - reflexivity.
  - intros hand j Hhand _. apply list_elem_of_singleton in Hhand as ->.
    apply not_true_is_false. rewrite overWhiteKey_spec.
    intros (_ & _ & _ & Hy). vm_compute in Hy. discriminate.
Defined.


Lemma marks_follow_last_hand_witness :
  overWhiteKey 640 480 (keypoints8 (demoHand 3)) 3 = true.
Proof.
  apply (marks_follow_last_hand 640 480 demoRandom demoMillis [] (demoHand 3)
           3 demoHeldState).
  - vm_compute. reflexivity.
  - vm_compute. reflexivity.
  - unfold inRange, numKeys. lia.
  - vm_compute. reflexivity.
Defined.

Lemma accepted_press_is_sounded_witness :
  audio demoFirstPress = audio (start demoRandom) ++ [3]
  /\ isKeyPressed demoFirstPress
     = <[3 := true]> (isKeyPressed (start demoRandom))
  /\ keyColors demoFirstPress = <[3 := blue]> (keyColors (start demoRandom))
  /\ timers demoFirstPress !! length (timers (start demoRandom))
     = Some (RevertKeyColor 3, 500)
  /\ lastKeyPressTime demoFirstPress
     = demoMillis (S (millisCalls (start demoRandom)))
  /\ millisCalls demoFirstPress = S (S (millisCalls (start demoRandom)))
  /\ accepted demoFirstPress
     = accepted (start demoRandom)
       ++ [(3, demoMillis (millisCalls (start demoRandom)))]
  /\ hands demoFirstPress = hands (start demoRandom).
Proof.
  apply (accepted_press_is_sounded 640 480 demoRandom demoMillis (demoHand 3)
           3 (start demoRandom)).
  vm_compute. reflexivity.
Defined.

Lemma level_is_earned_witness :
  (pressesNeeded demoHeldState <= length (accepted demoHeldState))%nat
  /\ (2 * pressesNeeded demoHeldState
      = (sequenceLength demoHeldState - 1) * sequenceLength demoHeldState
        + 2 * length (playerSequence demoHeldState))%nat.
Proof.
  apply (level_is_earned 640 480 demoRandom demoMillis demoHeldState).
  by exists (take 3 demoEvents).
Defined.

Lemma keyboard_arrays_stay_whole_witness :
  keyboardInv demoHeldState
  /\ Fill None ∉ drawPiano 640 480 (keyColors demoHeldState).
Proof.
  apply (keyboard_arrays_stay_whole 640 480 demoRandom demoMillis
           demoHeldState).
  by exists (take 3 demoEvents).
Defined.

Lemma replay_never_misses_a_clip_witness :
  Forall inRange (gameSequence demoHeldState)
  /\ (forall k n delay,
        timers demoHeldState !! k = Some (ReplayNote n, delay) ->
        noteLoaded n = true
        /\ audio (step 640 480 demoRandom demoMillis demoHeldState
                    (TimerFires k))
           = audio demoHeldState ++ [n]).
Proof.
  apply (replay_never_misses_a_clip 640 480 demoRandom demoMillis
           demoHeldState).
  - intros k. split; vm_compute; congruence.
  - by exists (take 3 demoEvents).
Defined.

Lemma message_tint_witness :
  tintInv demoMessageState
  /\ (message demoMessageState = msgVictory ->
      draw 640 480 demoRandom demoMillis demoMessageState
      = (demoMessageState, messageCalls 640 480 (color3 0 255 0) msgVictory))
  /\ (message demoMessageState = msgLoss ->
      draw 640 480 demoRandom demoMillis demoMessageState
      = (demoMessageState, messageCalls 640 480 (color3 255 0 0) msgLoss)).
Proof.
  apply (message_tint 640 480 demoRandom demoMillis demoMessageState).
  by exists (take 2 demoEvents).
Defined.

Lemma no_press_in_first_half_second_witness :
  inRange 3 /\ (debounceTime < 1000)%Q.
Proof.
  apply (no_press_in_first_half_second 640 480 demoRandom demoMillis
           demoEvents 0 3 1000).
  - intros k. unfold demoMillis. rewrite <- Zle_Qle. lia.
  - vm_compute. reflexivity.
Defined.

Lemma highlight_then_revert_witness :
  keyColors (fire (RevertKeyColor 3) (fire (ReplayNote 3) (start demoRandom)))
  = keyColors (start demoRandom)
  /\ (acceptsPress 640 480 demoMillis (demoHand 3) 3 (start demoRandom)
      = true ->
      keyColors (fire (RevertKeyColor 3)
                   (keyStep 640 480 demoRandom demoMillis (demoHand 3) 3
                      (start demoRandom)))
      = keyColors (start demoRandom)).
Proof.
  apply (highlight_then_revert 640 480 demoRandom demoMillis (demoHand 3) 3
           (start demoRandom)).
  vm_compute. reflexivity.
Defined.

